(** * zad5.cpp: approximating PI by the midpoint rule on several threads

    The program reads a number of subdivisions and a number of threads,
    splits [0,1] evenly between the threads, lets every thread integrate
    f(x) = 4 / (1 + x^2) on its part with the midpoint rule and adds the
    partial results into one accumulator guarded by a mutex.

    The development embeds the program shallowly:
    - [double] values are IEEE-754 binary64 numbers, modelled by the
      Standard Library's executable specification [SpecFloat] (precision
      53, exponent bound 1024, round to nearest even).  The model has one
      NaN (no payload); every operation is evaluated separately (no fused
      multiply-add);
    - the integration kernel is written once over an arithmetic interface
      [Arith], instantiated with binary64; bounds on its result are
      stated on the real numbers the doubles stand for;
    - the threads are a transition system: the launch loop and the
      critical sections interleave freely, and [main] produces a trace of
      observable events. *)

From Stdlib Require Import ZArith List Bool Lia Permutation String.
From Stdlib Require Import Reals Lra.
From Stdlib Require Import SpecFloat.
Import ListNotations.

Local Open Scope string_scope.
Local Open Scope Z_scope.
Local Open Scope list_scope.

(* ================================================================== *)
(** * Arithmetic interface *)

(** The operations the kernel uses on [double]: conversion from an
    integer (also used for the literals 0.0, 1.0, 2.0 and 4.0, which are
    exact) and the four operations. *)
Class Arith (T : Type) : Type := {
  of_int : Z -> T;
  add : T -> T -> T;
  sub : T -> T -> T;
  mul : T -> T -> T;
  div : T -> T -> T
}.

Declare Scope arith_scope.
Delimit Scope arith_scope with A.
Infix "+" := add : arith_scope.
Infix "-" := sub : arith_scope.
Infix "*" := mul : arith_scope.
Infix "/" := div : arith_scope.

(* ================================================================== *)
(** * IEEE-754 binary64 *)

Module F64.

Definition prec : Z := 53.
Definition emax : Z := 1024.

Definition double : Type := spec_float.

(** Conversion of an integer to [double], rounding to nearest even (exact
    below 2^53, hence for every [int]). *)
Definition of_Z (z : Z) : double := binary_normalize prec emax z 0 false.

Definition fadd : double -> double -> double := SFadd prec emax.
Definition fsub : double -> double -> double := SFsub prec emax.
Definition fmul : double -> double -> double := SFmul prec emax.
Definition fdiv : double -> double -> double := SFdiv prec emax.

Definition leb : double -> double -> bool := SFleb.
Definition ltb : double -> double -> bool := SFltb.

Definition zero : double := S754_zero false.
Definition one : double := S754_finite false 4503599627370496 (-52).
Definition nan : double := S754_nan.
Definition pinf : double := S754_infinity false.

(** The double nearest to m * 2^e. *)
Definition dyadic (m e : Z) : double := binary_normalize prec emax m e false.

(** The sign bit is clear, or the value is NaN. *)
Definition nonneg (x : double) : bool :=
  match x with
  | S754_zero s | S754_infinity s | S754_finite s _ _ => negb s
  | S754_nan => true
  end.

(** Positive and finite. *)
Definition pos_finite (x : double) : bool :=
  match x with
  | S754_finite false _ _ => true
  | _ => false
  end.

Definition valid (x : double) : bool := valid_binary prec emax x.

(** The smallest positive double, 2^-1074. *)
Definition min_subnormal : double := S754_finite false 1 (-1074).

(** 2^e as a real number. *)
Definition pow2 (e : Z) : R := powerRZ 2 e.

(** The real number a finite double stands for; 0 for the zeros and, by
    convention, for the infinities and NaN. *)
Definition to_R (x : double) : R :=
  match x with
  | S754_finite s m e => ((if s then -1 else 1) * IZR (Z.pos m) * pow2 e)%R
  | _ => 0%R
  end.

(** DBL_EPSILON = 2^-52: one operation on normal numbers has a relative
    error of at most [epsilon]. *)
Definition epsilon : R := pow2 (-52).

End F64.

#[export] Instance F64_Arith : Arith F64.double := {
  of_int := F64.of_Z;
  add := F64.fadd;
  sub := F64.fsub;
  mul := F64.fmul;
  div := F64.fdiv
}.

(* ================================================================== *)
(** * Machine integers *)

(** [unsigned long long]: 64 bits, wrap-around. *)
Definition ULLONG_MOD : Z := 2 ^ 64.
Definition wrap64 (z : Z) : Z := z mod ULLONG_MOD.
Definition in_ull (z : Z) : Prop := 0 <= z < ULLONG_MOD.

(** [int]: 32 bits. *)
Definition INT_MIN : Z := - 2 ^ 31.
Definition INT_MAX : Z := 2 ^ 31 - 1.
Definition in_int (z : Z) : Prop := INT_MIN <= z <= INT_MAX.

(** Conversion of an [int] operand to [unsigned long long] (usual
    arithmetic conversions in [num_steps / num_threads]). *)
Definition to_ull (z : Z) : Z := wrap64 z.

(** The indices 0, 1, ..., n-1. *)
Definition indices (n : Z) : list Z := map Z.of_nat (seq 0 (Z.to_nat n)).

(* ================================================================== *)
(** * The integration kernel *)

Section Kernel.

Context {T : Type} {AT : Arith T}.
Local Open Scope arith_scope.

(** The [for] loop of [calculate_partial_integral]; its state is the
    counter [i] and [sum].  One unit of fuel is one test of the guard
    that succeeds. *)
Fixpoint integrate_loop (fuel : nat) (start step_size : T) (steps : Z)
  (i : Z) (sum : T) : Z * T :=
  match fuel with
  | O => (i, sum)
  | S fuel' =>
      if (i <? steps)%Z then
        let x := start + of_int i * step_size + step_size / of_int 2 in
        integrate_loop fuel' start step_size steps
          (wrap64 (i + 1)%Z) (sum + of_int 4 / (of_int 1 + x * x))
      else (i, sum)
  end.

Definition calculate_partial_integral (start end_ : T) (steps : Z) : T :=
  let sum := of_int 0 in
  let step_size := (end_ - start) / of_int steps in
  let sum :=
    snd (integrate_loop (Z.to_nat steps) start step_size steps 0%Z sum) in
  sum * step_size.


(** ** The midpoint rule as the specification words it *)

Definition spec_f (x : T) : T := of_int 4 / (of_int 1 + x * x).

Definition spec_x (start step_size : T) (i : Z) : T :=
  start + of_int i * step_size + step_size / of_int 2.

Definition spec_sum (l : list T) : T := fold_left add l (of_int 0).

Definition midpoint_rule (start end_ : T) (steps : Z) : T :=
  let step_size := (end_ - start) / of_int steps in
  spec_sum (map (fun i => spec_f (spec_x start step_size i)) (indices steps))
  * step_size.

(* ================================================================ *)
(** * The orchestrator *)

(** Arguments handed to one thread. *)
Record worker : Type := {
  w_start : T;
  w_end : T;
  w_steps : Z
}.

Inductive event : Type :=
| Stdout (s : string)
| Stderr (s : string)
| Launch (w : worker)
| Accumulate (partial_result : T)
| PrintPi (total : T)
| PrintTime
| Return (code : Z).

(** [num_threads <= 0 || num_steps <= 0] *)
Definition invalid_input (num_steps num_threads : Z) : bool :=
  (num_threads <=? 0)%Z || (num_steps <=? 0)%Z.

Definition steps_per_thread (num_steps num_threads : Z) : Z :=
  (num_steps / to_ull num_threads)%Z.

Definition range_per_thread (num_threads : Z) : T :=
  of_int 1 / of_int num_threads.

(** Body of the launch loop for the counter value [i].  [i + 1] is an
    [int] addition; it cannot overflow because [i < num_threads]. *)
Definition dispatch (num_steps num_threads i : Z) : worker :=
  {| w_start := of_int i * range_per_thread num_threads;
     w_end := of_int (i + 1)%Z * range_per_thread num_threads;
     w_steps := steps_per_thread num_steps num_threads |}.

(** What [thread_worker] computes before it takes the lock. *)
Definition partial_result (w : worker) : T :=
  calculate_partial_integral (w_start w) (w_end w) (w_steps w).

(** State of the parallel phase: the accumulator, the counter of the
    launch loop, the threads launched that have not yet added their
    result, and the events so far. *)
Record pstate : Type := {
  total_result : T;
  next_i : Z;
  running : list worker;
  trace : list event
}.

Definition initial : pstate :=
  {| total_result := of_int 0; next_i := 0%Z; running := []; trace := [] |}.

Section Run.

Variables num_steps num_threads : Z.

(** One step: the main thread launches the next thread, or one running
    thread enters its critical section and adds its partial result. *)
Inductive pstep : pstate -> pstate -> Prop :=
| step_launch st :
    (next_i st < num_threads)%Z ->
    pstep st
      {| total_result := total_result st;
         next_i := (next_i st + 1)%Z;
         running := running st ++ [dispatch num_steps num_threads (next_i st)];
         trace := trace st ++ [Launch (dispatch num_steps num_threads (next_i st))] |}
| step_accumulate st before w after :
    running st = before ++ w :: after ->
    pstep st
      {| total_result := total_result st + partial_result w;
         next_i := next_i st;
         running := before ++ after;
         trace := trace st ++ [Accumulate (partial_result w)] |}.

Inductive psteps : pstate -> pstate -> Prop :=
| psteps_refl st : psteps st st
| psteps_step st1 st2 st3 : pstep st1 st2 -> psteps st2 st3 -> psteps st1 st3.

(** The launch loop has ended and every thread has been joined. *)
Definition joined (st : pstate) : Prop :=
  (num_threads <= next_i st)%Z /\ running st = [].

Definition prompt_steps : string := "Podaj liczbe podzialow (np. 1000000000): ".
Definition prompt_threads : string := "Podaj liczbe watkow: ".
Definition error_message : string := "Liczba wątków i podziałów musi być dodatnia!".

Definition rejected : list event :=
  [Stdout prompt_steps; Stdout prompt_threads; Stderr error_message; Return 1%Z].

(** Runs of [main] on the values stored in [num_steps] and [num_threads]. *)
Inductive main_run : list event -> Prop :=
| main_reject :
    invalid_input num_steps num_threads = true ->
    main_run rejected
| main_report st :
    invalid_input num_steps num_threads = false ->
    psteps initial st ->
    joined st ->
    main_run ([Stdout prompt_steps; Stdout prompt_threads] ++ trace st ++
              [PrintPi (total_result st); PrintTime; Return 0%Z]).

(** The accumulator after the threads took the lock in the order [order]. *)
Definition accumulate_in_order (order : list Z) : T :=
  fold_left (fun acc j => acc + partial_result (dispatch num_steps num_threads j))
    order (of_int 0).

(** The run in which every thread is launched first and the threads then
    take the lock in the order [order]. *)
Definition scheduled_trace (order : list Z) : list event :=
  map (fun j => Launch (dispatch num_steps num_threads j)) (indices num_threads) ++
  map (fun j => Accumulate (partial_result (dispatch num_steps num_threads j))) order.

Definition main_scheduled (order : list Z) : list event :=
  if invalid_input num_steps num_threads then rejected
  else [Stdout prompt_steps; Stdout prompt_threads] ++ scheduled_trace order ++
       [PrintPi (accumulate_in_order order); PrintTime; Return 0%Z].

End Run.

(** The value printed as the approximation of PI, if any. *)
Fixpoint printed_pi (tr : list event) : option T :=
  match tr with
  | [] => None
  | PrintPi v :: _ => Some v
  | _ :: tr' => printed_pi tr'
  end.

Definition is_launch (ev : event) : bool :=
  match ev with Launch _ => true | _ => false end.

Definition is_accumulate (ev : event) : bool :=
  match ev with Accumulate _ => true | _ => false end.

Definition launched (tr : list event) : list worker :=
  flat_map (fun ev => match ev with Launch w => [w] | _ => [] end) tr.

Definition accumulated (tr : list event) : list T :=
  flat_map (fun ev => match ev with Accumulate p => [p] | _ => [] end) tr.


Definition exit_status (tr : list event) : option Z :=
  match last tr PrintTime with
  | Return c => Some c
  | _ => None
  end.

(** What holds of every state the parallel phase reaches: the threads with
    indices [done] have added their results, in that order, those with
    indices [pending] are still running, and together they are the
    threads launched so far. *)
Definition run_invariant (num_steps num_threads : Z) (st : pstate)
  (done pending : list Z) : Prop :=
  total_result st = accumulate_in_order num_steps num_threads done /\
  running st = map (dispatch num_steps num_threads) pending /\
  Permutation (done ++ pending) (indices (next_i st)) /\
  (0 <= next_i st <= num_threads)%Z /\
  launched (trace st) =
    map (dispatch num_steps num_threads) (indices (next_i st)) /\
  accumulated (trace st) =
    map (fun j => partial_result (dispatch num_steps num_threads j)) done /\
  Forall (fun ev => is_launch ev = true \/ is_accumulate ev = true) (trace st).

(** ** Reading the two numbers

    [std::cin >> num_steps] converts the digits as [strtoull] does: a
    leading minus sign negates the value in the unsigned type.  An entry
    whose magnitude does not fit stores the largest value and leaves the
    stream in a failed state; [std::cin >> num_threads] then stores
    nothing and [num_threads] keeps the value it happened to have.
    [std::cin >> num_threads] stores an [int]; an entry below or above
    the range of [int] stores the nearest bound.  The program never
    tests the stream: it goes on with the stored values. *)
Definition ULLONG_MAX : Z := ULLONG_MOD - 1.

Definition read_ull (entered : Z) : Z * bool :=
  if ((- ULLONG_MOD <? entered) && (entered <? ULLONG_MOD))%Z
  then (wrap64 entered, true) else (ULLONG_MAX, false).

Definition read_int (entered : Z) : Z :=
  if (entered <? INT_MIN)%Z then INT_MIN
  else if (INT_MAX <? entered)%Z then INT_MAX
  else entered.

Definition program (entered_steps entered_threads : Z) (tr : list event) : Prop :=
  let (num_steps, good) := read_ull entered_steps in
  if good then main_run num_steps (read_int entered_threads) tr
  else exists num_threads, in_int num_threads /\ main_run num_steps num_threads tr.

End Kernel.

Arguments worker T : clear implicits.
Arguments event T : clear implicits.
Arguments pstate T : clear implicits.

(* ================================================================== *)
(** * Rounding errors: what is tracked *)

(** A positive normal double (53-bit mantissa) with exponent in
    [lo, hi]. *)
Definition npos (lo hi : Z) (x : F64.double) : Prop :=
  exists m e, x = S754_finite false m e /\
    2 ^ 52 <= Z.pos m < 2 ^ 53 /\ lo <= e <= hi.

(** A zero, or a positive double, normal or not, with exponent at most
    [hi]. *)
Definition wpos (hi : Z) (x : F64.double) : Prop :=
  (exists s, x = S754_zero s) \/
  exists m e, x = S754_finite false m e /\ Z.pos m < 2 ^ 53 /\ -1074 <= e <= hi.

(** [x] is [v] after one rounding. *)
Definition rounded (v x : R) : Prop :=
  (v * (1 - F64.epsilon) <= x <= v * (1 + F64.epsilon))%R.

(** The factors by which [k] roundings can shrink or grow a positive
    value. *)
Definition shrink (k : nat) : R := ((1 - F64.epsilon) ^ k)%R.
Definition grow (k : nat) : R := ((1 + F64.epsilon) ^ k)%R.

(** [x] is [v] after at most [k] roundings. *)
Definition within (k : nat) (v x : R) : Prop :=
  (v * shrink k <= x <= v * grow k)%R.

(** What holds of every sample 4 / (1 + x * x) the loop adds, and of the
    sum after [k] additions. *)
Definition good_sample (t : F64.double) : Prop :=
  npos (-175) (-49) t /\ (2 * shrink 13 <= F64.to_R t <= 4 * grow 3)%R.

Definition sum_invariant (k : nat) (acc : F64.double) : Prop :=
  (k = 0%nat /\ acc = F64.zero) \/
  ((1 <= k)%nat /\ npos (-175) 1 acc /\
   (2 * INR k * shrink (13 + k) <= F64.to_R acc <= 4 * INR k * grow (3 + k))%R).

(* ================================================================== *)
(** * Facts on machine integers *)

Lemma wrap64_small (z : Z) : in_ull z -> wrap64 z = z.
Proof. unfold in_ull, wrap64. intros Hz. now apply Z.mod_small. Qed.

Lemma to_ull_pos (z : Z) : 0 < z -> in_int z -> to_ull z = z.
Proof.
  unfold in_int, INT_MAX, to_ull. intros Hpos [_ Hmax].
  apply wrap64_small. unfold in_ull, ULLONG_MOD. lia.
Qed.

Lemma indices_succ (n : Z) : 0 <= n -> indices (n + 1) = indices n ++ [n].
Proof.
  intros Hn. unfold indices.
  replace (Z.to_nat (n + 1)) with (S (Z.to_nat n)) by lia.
  rewrite seq_S, map_app. simpl. now rewrite Z2Nat.id.
Qed.

Lemma indices_length (n : Z) : List.length (indices n) = Z.to_nat n.
Proof. unfold indices. now rewrite length_map, length_seq. Qed.

Lemma indices_In (n j : Z) : In j (indices n) <-> 0 <= j < n.
Proof.
  unfold indices. rewrite in_map_iff. split.
  - intros [k [<- Hk]]. apply in_seq in Hk. lia.
  - intros Hj. exists (Z.to_nat j). split; [lia | apply in_seq; lia].
Qed.

(* ================================================================== *)
(** * The loop of the kernel *)

Section KernelFacts.

Context {T : Type} {AT : Arith T}.
Local Open Scope arith_scope.

(** Run from counter [i] with [k] iterations left, the loop leaves by its
    guard with the counter at [steps], having added the [k] remaining
    samples from left to right; fuel beyond [k] is not used. *)
Lemma integrate_loop_unroll (start h : T) (steps : Z) (k extra : nat) :
  forall (i : Z) (sum : T),
    (0 <= i)%Z -> (i + Z.of_nat k = steps)%Z -> (steps < ULLONG_MOD)%Z ->
    integrate_loop (k + extra) start h steps i sum =
    (steps,
     fold_left add
       (map (fun j => spec_f (spec_x start h j))
            (map (fun j => (i + Z.of_nat j)%Z) (seq 0 k)))
       sum).
Proof.
  induction k as [|k IH]; intros i sum Hi Hk Hlt.
  - simpl. replace i with steps by lia.
    destruct extra; simpl; [reflexivity|].
    now rewrite Z.ltb_irrefl.
  - cbn [Nat.add integrate_loop].
    assert (Hg : (i <? steps)%Z = true) by (apply Z.ltb_lt; lia).
    rewrite Hg.
    rewrite wrap64_small by (unfold in_ull; lia).
    rewrite IH by lia.
    assert (E : map (fun j => (i + 1 + Z.of_nat j)%Z) (seq 0 k) =
                map (fun j => (i + Z.of_nat j)%Z) (seq 1 k)).
    { rewrite <- seq_shift, map_map. apply map_ext. intros j. lia. }
    rewrite E. cbn [seq map fold_left].
    change (Z.of_nat 0) with 0%Z. rewrite Z.add_0_r. reflexivity.
Qed.

Lemma integrate_loop_exact (start h : T) (steps : Z) (extra : nat) :
  (0 <= steps < ULLONG_MOD)%Z ->
  integrate_loop (Z.to_nat steps + extra) start h steps 0%Z (of_int 0) =
  (steps, spec_sum (map (fun j => spec_f (spec_x start h j)) (indices steps))).
Proof.
  intros [H0 Hlt].
  rewrite (integrate_loop_unroll start h steps (Z.to_nat steps) extra) by lia.
  unfold spec_sum, indices. do 2 f_equal.
Qed.

Lemma calculate_partial_integral_midpoint (start end_ : T) (steps : Z) :
  (0 <= steps < ULLONG_MOD)%Z ->
  calculate_partial_integral start end_ steps = midpoint_rule start end_ steps.
Proof.
  intros Hs. unfold calculate_partial_integral, midpoint_rule.
  rewrite <- (Nat.add_0_r (Z.to_nat steps)).
  now rewrite integrate_loop_exact.
Qed.


(** With no step to take the loop body never runs. *)
Lemma calculate_partial_integral_0 (start end_ : T) :
  calculate_partial_integral start end_ 0 =
  of_int 0 * ((end_ - start) / of_int 0).
Proof. reflexivity. Qed.

End KernelFacts.

(* ================================================================== *)
(** * The parallel phase *)

Section RunFacts.

Context {T : Type} {AT : Arith T}.
Variables num_steps num_threads : Z.
Local Open Scope arith_scope.

Local Abbreviation step := (pstep (T:=T) num_steps num_threads).
Local Abbreviation steps := (psteps (T:=T) num_steps num_threads).
Local Abbreviation disp := (dispatch (T:=T) num_steps num_threads).
Local Abbreviation inv := (run_invariant (T:=T) num_steps num_threads).

Lemma psteps_trans (st1 st2 st3 : pstate T) :
  steps st1 st2 -> steps st2 st3 -> steps st1 st3.
Proof.
  induction 1 as [|a b c Hab Hbc IH]; intros H3; [assumption|].
  eapply psteps_step; eauto.
Qed.

Lemma psteps_snoc (st1 st2 st3 : pstate T) :
  steps st1 st2 -> step st2 st3 -> steps st1 st3.
Proof.
  intros H12 H23. eapply psteps_trans; [eassumption|].
  eapply psteps_step; [eassumption | apply psteps_refl].
Qed.

Lemma launched_app (tr1 tr2 : list (event T)) :
  launched (tr1 ++ tr2) = launched tr1 ++ launched tr2.
Proof. unfold launched. apply flat_map_app. Qed.

Lemma accumulated_app (tr1 tr2 : list (event T)) :
  accumulated (tr1 ++ tr2) = accumulated tr1 ++ accumulated tr2.
Proof. unfold accumulated. apply flat_map_app. Qed.

Lemma accumulate_in_order_snoc (order : list Z) (j : Z) :
  accumulate_in_order num_steps num_threads (order ++ [j]) =
  accumulate_in_order num_steps num_threads order + partial_result (disp j).
Proof. unfold accumulate_in_order. now rewrite fold_left_app. Qed.

Lemma run_invariant_initial : 0 <= num_threads -> inv initial [] [].
Proof.
  intros Hn. unfold run_invariant. cbn.
  repeat split; try reflexivity; try lia; constructor.
Qed.

Lemma run_invariant_step (st st' : pstate T) (done pending : list Z) :
  inv st done pending -> step st st' ->
  exists done' pending', inv st' done' pending'.
Proof.
  intros (Htot & Hrun & Hperm & Hrange & Hl & Ha & Hev) Hstep.
  destruct Hstep as [st Hlt | st before w after Hsplit].
  - exists done, (pending ++ [next_i st]). unfold run_invariant.
    cbn [total_result next_i running trace].
    rewrite indices_succ by lia.
    rewrite launched_app, accumulated_app, Hl, Ha, Hrun, !map_app. cbn.
    repeat split; try lia.
    + assumption.
    + rewrite app_assoc. now apply Permutation_app_tail.
    + now rewrite app_nil_r.
    + apply Forall_app. split; [assumption|]. constructor; [now left | constructor].
  - rewrite Hrun in Hsplit.
    apply map_eq_app in Hsplit.
    destruct Hsplit as (p1 & p2' & Hpend & Hb & Hrest).
    destruct p2' as [|j p2]; [discriminate|].
    cbn [map] in Hrest. injection Hrest as Hw Ha2.
    exists (done ++ [j]), (p1 ++ p2). unfold run_invariant.
    cbn [total_result next_i running trace].
    rewrite launched_app, accumulated_app, Hl, Ha, !map_app. cbn.
    rewrite accumulate_in_order_snoc, Htot, Hw, Hb, Ha2, !app_nil_r.
    repeat split; try lia.
    + rewrite <- Hperm, Hpend, <- app_assoc.
      apply Permutation_app_head. cbn. apply Permutation_middle.
    + apply Forall_app. split; [assumption|]. constructor; [now right | constructor].
Qed.

Lemma run_invariant_steps (st st' : pstate T) :
  steps st st' ->
  forall done pending, inv st done pending ->
  exists done' pending', inv st' done' pending'.
Proof.
  induction 1 as [st | st1 st2 st3 H12 H23 IH]; intros done pending Hinv.
  - eauto.
  - destruct (run_invariant_step _ _ _ _ Hinv H12) as (d & p & Hinv2). eauto.
Qed.

(** Every state in which all threads are joined has accumulated the
    partial results of the threads 0 .. num_threads-1, each once, in the
    order in which the lock was taken. *)
Lemma joined_state (st : pstate T) :
  0 <= num_threads ->
  steps initial st -> joined num_threads st ->
  exists order,
    Permutation order (indices num_threads) /\
    total_result st = accumulate_in_order num_steps num_threads order /\
    launched (trace st) = map disp (indices num_threads) /\
    accumulated (trace st) = map (fun j => partial_result (disp j)) order /\
    Forall (fun ev => is_launch ev = true \/ is_accumulate ev = true) (trace st).
Proof.
  intros Hn Hsteps [Hnext Hrun].
  destruct (run_invariant_steps _ _ Hsteps [] [] (run_invariant_initial Hn))
    as (done & pending & Htot & Hr & Hperm & Hrange & Hl & Ha & Hev).
  rewrite Hrun in Hr. symmetry in Hr. apply map_eq_nil in Hr. subst pending.
  rewrite app_nil_r in Hperm.
  assert (E : next_i st = num_threads) by lia. rewrite E in *.
  exists done. auto.
Qed.

(** ** Every order of the critical sections is a run *)

Lemma launch_all (k : nat) :
  Z.of_nat k <= num_threads ->
  steps initial
    {| total_result := of_int 0;
       next_i := Z.of_nat k;
       running := map disp (indices (Z.of_nat k));
       trace := map (fun j => Launch (disp j)) (indices (Z.of_nat k)) |}.
Proof.
  induction k as [|k IH]; intros Hk.
  - apply psteps_refl.
  - eapply psteps_snoc; [apply IH; lia|].
    replace (Z.of_nat (S k)) with (Z.of_nat k + 1)%Z by lia.
    rewrite indices_succ, !map_app by lia. cbn [map].
    apply (step_launch num_steps num_threads
             {| total_result := of_int 0;
                next_i := Z.of_nat k;
                running := map disp (indices (Z.of_nat k));
                trace := map (fun j => Launch (disp j)) (indices (Z.of_nat k)) |}).
    cbn. lia.
Qed.

Lemma accumulate_all (order : list Z) :
  forall (pending : list Z) (total : T) (n : Z) (tr : list (event T)),
    Permutation order pending ->
    steps
      {| total_result := total; next_i := n;
         running := map disp pending; trace := tr |}
      {| total_result :=
           fold_left (fun acc j => acc + partial_result (disp j)) order total;
         next_i := n;
         running := [];
         trace := tr ++ map (fun j => Accumulate (partial_result (disp j))) order |}.
Proof.
  induction order as [|j order IH]; intros pending total n tr Hperm.
  - apply Permutation_nil in Hperm. subst pending. cbn.
    rewrite app_nil_r. apply psteps_refl.
  - assert (Hin : In j pending) by (eapply Permutation_in; [eassumption | now left]).
    apply in_split in Hin. destruct Hin as (p1 & p2 & ->).
    apply Permutation_cons_app_inv in Hperm.
    eapply psteps_step.
    + apply (step_accumulate num_steps num_threads
               {| total_result := total; next_i := n;
                  running := map disp (p1 ++ j :: p2); trace := tr |}
               (map disp p1) (disp j) (map disp p2)).
      cbn. now rewrite map_app.
    + cbn. rewrite <- map_app.
      replace (tr ++ Accumulate (partial_result (disp j)) ::
               map (fun j0 => Accumulate (partial_result (disp j0))) order)
        with ((tr ++ [Accumulate (partial_result (disp j))]) ++
              map (fun j0 => Accumulate (partial_result (disp j0))) order)
        by (now rewrite <- app_assoc).
      now apply IH.
Qed.

Lemma scheduled_run (order : list Z) :
  0 <= num_threads ->
  Permutation order (indices num_threads) ->
  exists st,
    steps initial st /\ joined num_threads st /\
    total_result st = accumulate_in_order num_steps num_threads order /\
    trace st = scheduled_trace num_steps num_threads order.
Proof.
  intros Hn Hperm.
  eexists. split; [|split; [|split]].
  - eapply psteps_trans.
    + apply (launch_all (Z.to_nat num_threads)). lia.
    + rewrite Z2Nat.id by lia. apply accumulate_all. eassumption.
  - split; cbn; [lia | reflexivity].
  - reflexivity.
  - reflexivity.
Qed.

Lemma main_scheduled_run (order : list Z) :
  0 <= num_threads ->
  Permutation order (indices num_threads) ->
  main_run num_steps num_threads (main_scheduled num_steps num_threads order).
Proof.
  intros Hn Hperm. unfold main_scheduled.
  destruct (invalid_input num_steps num_threads) eqn:Hv.
  - now apply main_reject.
  - destruct (scheduled_run order Hn Hperm) as (st & Hs & Hj & Htot & Htr).
    rewrite <- Htot, <- Htr. now apply main_report.
Qed.

End RunFacts.

(* ================================================================== *)
(** * Runs of main *)

Section MainFacts.

Context {T : Type} {AT : Arith T}.
Variables num_steps num_threads : Z.
Local Open Scope arith_scope.

Local Abbreviation disp := (dispatch (T:=T) num_steps num_threads).

Lemma printed_pi_parallel (par rest : list (event T)) :
  Forall (fun ev => is_launch ev = true \/ is_accumulate ev = true) par ->
  printed_pi (par ++ rest) = printed_pi rest.
Proof.
  induction 1 as [|ev par Hev _ IH]; [reflexivity|].
  cbn [app]. destruct ev; cbn in *; try assumption;
    destruct Hev; discriminate.
Qed.

Lemma launched_parallel (par : list (event T)) (v : T) (c : Z) :
  launched ([Stdout prompt_steps; Stdout prompt_threads] ++ par ++
            [PrintPi v; PrintTime; Return c]) = launched par.
Proof.
  rewrite !launched_app. cbn. now rewrite app_nil_r.
Qed.

Lemma accumulated_parallel (par : list (event T)) (v : T) (c : Z) :
  accumulated ([Stdout prompt_steps; Stdout prompt_threads] ++ par ++
               [PrintPi v; PrintTime; Return c]) = accumulated par.
Proof.
  rewrite !accumulated_app. cbn. now rewrite app_nil_r.
Qed.

Lemma exit_status_report (par : list (event T)) (v : T) (c : Z) :
  exit_status ([Stdout prompt_steps; Stdout prompt_threads] ++ par ++
               [PrintPi v; PrintTime; Return c]) = Some c.
Proof.
  unfold exit_status.
  replace ([Stdout prompt_steps; Stdout prompt_threads] ++ par ++
           [PrintPi v; PrintTime; Return c])
    with (([Stdout prompt_steps; Stdout prompt_threads] ++ par ++
           [PrintPi v; PrintTime]) ++ [Return c]).
  - now rewrite last_last.
  - now rewrite <- !app_assoc.
Qed.

(** A run on rejected input is the error run. *)
Lemma main_run_invalid (tr : list (event T)) :
  invalid_input num_steps num_threads = true ->
  main_run num_steps num_threads tr -> tr = rejected.
Proof.
  intros Hv Hrun. destruct Hrun as [_ | st Hok _ _]; [reflexivity | congruence].
Qed.

(** A run on accepted input launches the threads 0 .. num_threads-1 in
    this order, adds every partial result once and prints the sum. *)
Lemma main_run_valid (tr : list (event T)) :
  invalid_input num_steps num_threads = false ->
  main_run num_steps num_threads tr ->
  exists order,
    Permutation order (indices num_threads) /\
    printed_pi tr = Some (accumulate_in_order num_steps num_threads order) /\
    launched tr = map disp (indices num_threads) /\
    accumulated tr = map (fun j => partial_result (disp j)) order /\
    exit_status tr = Some 0%Z.
Proof.
  intros Hv Hrun. destruct Hrun as [Hbad | st _ Hsteps Hj]; [congruence|].
  assert (Hn : (0 <= num_threads)%Z).
  { unfold invalid_input in Hv. apply orb_false_iff in Hv. destruct Hv as [Hv _].
    apply Z.leb_gt in Hv. lia. }
  destruct (joined_state num_steps num_threads st Hn Hsteps Hj)
    as (order & Hperm & Htot & Hl & Ha & Hev).
  exists order. split; [assumption|].
  rewrite launched_parallel, accumulated_parallel, exit_status_report.
  repeat split; try assumption.
  cbn [app printed_pi]. rewrite printed_pi_parallel by assumption.
  cbn. now rewrite Htot.
Qed.

(** The program always has a run. *)
Lemma main_run_exists :
  exists tr, main_run num_steps num_threads tr.
Proof.
  destruct (invalid_input num_steps num_threads) eqn:Hv.
  - exists rejected. now apply main_reject.
  - exists (main_scheduled num_steps num_threads (indices num_threads)).
    apply main_scheduled_run; [|reflexivity].
    unfold invalid_input in Hv. apply orb_false_iff in Hv. destruct Hv as [Hv _].
    apply Z.leb_gt in Hv. lia.
Qed.

End MainFacts.

(* ================================================================== *)
(** * Signs and NaN in binary64 *)

Module F64Facts.
Import F64.

Create HintDb f64 discriminated.

Lemma binary_round_aux_nonneg (m e : Z) (l : location) :
  nonneg (binary_round_aux prec emax false m e l) = true.
Proof.
  unfold binary_round_aux.
  destruct (shr_fexp prec emax m e l) as [mrs' e'].
  destruct (shr_fexp prec emax _ e' loc_Exact) as [mrs'' e''].
  destruct (shr_m mrs''); [reflexivity | | reflexivity].
  now destruct (Z.leb e'' (emax - prec)).
Qed.

Lemma binary_round_nonneg (m : positive) (e : Z) :
  nonneg (binary_round prec emax false m e) = true.
Proof.
  unfold binary_round.
  destruct (shl_align m e _) as [mz ez]. apply binary_round_aux_nonneg.
Qed.

Lemma of_Z_nonneg (z : Z) : 0 <= z -> nonneg (of_Z z) = true.
Proof.
  intros Hz. unfold of_Z, binary_normalize.
  destruct z as [|p|p]; [reflexivity | apply binary_round_nonneg | lia].
Qed.

Lemma fmul_nonneg (x y : double) :
  nonneg x = true -> nonneg y = true -> nonneg (fmul x y) = true.
Proof.
  unfold fmul, SFmul.
  destruct x as [[|]|[|]| |[|] mx ex], y as [[|]|[|]| |[|] my ey];
    cbn [nonneg negb xorb]; intros Hx Hy;
    try discriminate; try reflexivity.
  apply binary_round_aux_nonneg.
Qed.

(** A square has its sign bit clear whatever the operand. *)
Lemma fmul_self_nonneg (x : double) : nonneg (fmul x x) = true.
Proof.
  unfold fmul, SFmul.
  destruct x as [[|]|[|]| |[|] mx ex]; cbn [nonneg negb xorb];
    try reflexivity; apply binary_round_aux_nonneg.
Qed.

Lemma fadd_nonneg (x y : double) :
  nonneg x = true -> nonneg y = true -> nonneg (fadd x y) = true.
Proof.
  unfold fadd, SFadd.
  destruct x as [[|]|[|]| |[|] mx ex], y as [[|]|[|]| |[|] my ey];
    cbn [nonneg negb]; intros Hx Hy;
    try discriminate; try reflexivity.
  cbn [cond_Zopp Z.add binary_normalize]. apply binary_round_nonneg.
Qed.

Lemma fdiv_nonneg (x y : double) :
  nonneg x = true -> nonneg y = true -> nonneg (fdiv x y) = true.
Proof.
  unfold fdiv, SFdiv.
  destruct x as [[|]|[|]| |[|] mx ex], y as [[|]|[|]| |[|] my ey];
    cbn [nonneg negb xorb]; intros Hx Hy;
    try discriminate; try reflexivity.
  destruct (SFdiv_core_binary prec emax (Z.pos mx) ex (Z.pos my) ey) as [[mz ez] lz].
  apply binary_round_aux_nonneg.
Qed.

#[export] Hint Resolve of_Z_nonneg fmul_nonneg fmul_self_nonneg
  fadd_nonneg fdiv_nonneg : f64.

(** Adding to +0.0 changes nothing but a negative zero. *)
Lemma fadd_zero_l (x : double) : nonneg x = true -> fadd zero x = x.
Proof.
  unfold fadd, zero, SFadd.
  destruct x as [[|]|[|]| |[|] mx ex]; cbn [nonneg negb]; intros Hx;
    try discriminate; reflexivity.
Qed.

(** ** NaN *)

Lemma fadd_nan_l (x : double) : fadd nan x = nan.
Proof. reflexivity. Qed.

(** Division by +0.0 gives an infinity or NaN, never a finite number. *)
Lemma fdiv_zero (x : double) :
  fdiv x zero = match x with
                | S754_zero _ | S754_nan => nan
                | S754_infinity s | S754_finite s _ _ => S754_infinity s
                end.
Proof. destruct x as [[|]|[|]| |[|] mx ex]; reflexivity. Qed.

Lemma fmul_zero_fdiv_zero (x : double) : fmul zero (fdiv x zero) = nan.
Proof. rewrite fdiv_zero. destruct x as [[|]|[|]| |[|] mx ex]; reflexivity. Qed.

End F64Facts.

(* ================================================================== *)
(** * Rounding in binary64

    What [binary_round_aux] returns on a mantissa of at least 53 bits away
    from the subnormal and overflow ranges, and what follows for the
    conversion of integers and for the operations on normal numbers. *)

Module F64Rounding.
Import F64.

Lemma digits2_pos_size (p : positive) : digits2_pos p = Pos.size p.
Proof. induction p as [p IH|p IH|]; cbn; congruence. Qed.

Lemma Zdigits2_log2 (m : Z) : 0 < m -> Zdigits2 m = Z.log2 m + 1.
Proof.
  intros Hm. destruct m as [|p|p]; try lia.
  cbn [Zdigits2]. rewrite digits2_pos_size.
  destruct p as [p|p|]; cbn [Z.log2 Pos.size]; lia.
Qed.

Lemma Zdigits2_bounds (m : Z) :
  0 < m -> 2 ^ (Zdigits2 m - 1) <= m < 2 ^ Zdigits2 m.
Proof.
  intros Hm. rewrite Zdigits2_log2 by assumption.
  replace (Z.log2 m + 1 - 1) with (Z.log2 m) by lia.
  apply Z.log2_spec. assumption.
Qed.

Lemma Zdigits2_unique (m d : Z) :
  0 < d -> 2 ^ (d - 1) <= m < 2 ^ d -> Zdigits2 m = d.
Proof.
  intros Hd Hm.
  assert (0 < m) by (assert (0 < 2 ^ (d - 1)) by (apply Z.pow_pos_nonneg; lia); lia).
  rewrite Zdigits2_log2 by assumption.
  rewrite (Z.log2_unique m (d - 1)); try lia.
  replace (Z.succ (d - 1)) with d by lia. assumption.
Qed.

Lemma shr_m_shr_1 (mrs : shr_record) :
  0 <= shr_m mrs -> shr_m (shr_1 mrs) = shr_m mrs / 2.
Proof.
  destruct mrs as [m r s]. cbn [shr_m]. intros Hm.
  destruct m as [|[p|p|]|p]; cbn [shr_1 shr_m]; try lia.
  - reflexivity.
  - rewrite Pos2Z.inj_xI. apply Z.div_unique with 1; lia.
  - rewrite Pos2Z.inj_xO. apply Z.div_unique with 0; lia.
  - reflexivity.
Qed.

Lemma pow2_pos (k : Z) : 0 <= k -> 0 < 2 ^ k.
Proof. intros Hk. apply Z.pow_pos_nonneg; lia. Qed.

Lemma shr_m_iter_pos (p : positive) :
  forall mrs, 0 <= shr_m mrs ->
    0 <= shr_m (iter_pos shr_1 p mrs) /\
    shr_m (iter_pos shr_1 p mrs) = shr_m mrs / 2 ^ Z.pos p.
Proof.
  induction p as [p IH|p IH|]; intros mrs Hm; cbn [iter_pos].
  - assert (H1 : 0 <= shr_m (shr_1 mrs)).
    { rewrite shr_m_shr_1 by assumption. apply Z.div_pos; lia. }
    destruct (IH _ H1) as [H2 E2]. destruct (IH _ H2) as [H3 E3].
    split; [assumption|].
    rewrite E3, E2, shr_m_shr_1 by assumption.
    assert (Hp := pow2_pos (Z.pos p) ltac:(lia)).
    rewrite !Z.div_div by lia.
    f_equal.
    replace (Z.pos p~1) with (1 + Z.pos p + Z.pos p) by lia.
    rewrite !Z.pow_add_r by lia. rewrite Z.pow_1_r. ring.
  - destruct (IH _ Hm) as [H2 E2]. destruct (IH _ H2) as [H3 E3].
    split; [assumption|].
    rewrite E3, E2.
    assert (Hp := pow2_pos (Z.pos p) ltac:(lia)).
    rewrite !Z.div_div by lia.
    f_equal.
    replace (Z.pos p~0) with (Z.pos p + Z.pos p) by lia.
    now rewrite !Z.pow_add_r by lia.
  - rewrite shr_m_shr_1 by assumption. rewrite Z.pow_1_r.
    split; [apply Z.div_pos; lia | reflexivity].
Qed.

Lemma round_nearest_even_cases (m : Z) (l : location) :
  round_nearest_even m l = m \/ round_nearest_even m l = m + 1.
Proof.
  destruct l as [|[| |]]; cbn [round_nearest_even]; auto.
  destruct (Z.even m); auto.
Qed.

Lemma shr_m_of_loc (m : Z) (l : location) : shr_m (shr_record_of_loc m l) = m.
Proof. now destruct l as [|[| |]]. Qed.

(** Away from the subnormal range, [shr_fexp] drops the bits beyond the
    53rd. *)
Lemma shr_fexp_normal (m e : Z) (l : location) :
  0 < m -> 53 <= Zdigits2 m -> -1074 <= Zdigits2 m + e - 53 ->
  exists mrs,
    shr_fexp prec emax m e l = (mrs, e + (Zdigits2 m - 53)) /\
    shr_m mrs = m / 2 ^ (Zdigits2 m - 53).
Proof.
  intros Hm Hd He. unfold shr_fexp, shr, fexp, emin, prec, emax.
  rewrite Z.max_l by lia.
  replace (Zdigits2 m + e - 53 - e) with (Zdigits2 m - 53) by lia.
  destruct (Zdigits2 m - 53) as [|p|p] eqn:Hk; try lia.
  - eexists. split; [now rewrite Z.add_0_r|].
    rewrite shr_m_of_loc. now rewrite Z.pow_0_r, Z.div_1_r.
  - eexists. split; [reflexivity|].
    destruct (shr_m_iter_pos p (shr_record_of_loc m l)) as [_ E].
    + rewrite shr_m_of_loc. lia.
    + now rewrite E, shr_m_of_loc.
Qed.

Lemma binary_round_aux_normal (sx : bool) (m e : Z) (l : location) :
  0 < m -> 53 <= Zdigits2 m ->
  -1074 <= Zdigits2 m + e - 53 -> Zdigits2 m + e <= 1023 ->
  exists m3 e3,
    binary_round_aux prec emax sx m e l = S754_finite sx m3 e3 /\
    2 ^ 52 <= Z.pos m3 < 2 ^ 53 /\
    e + (Zdigits2 m - 53) <= e3 <= e + (Zdigits2 m - 53) + 1 /\
    m / 2 ^ (Zdigits2 m - 53) * 2 ^ (Zdigits2 m - 53)
      <= Z.pos m3 * 2 ^ (e3 - e)
      <= (m / 2 ^ (Zdigits2 m - 53) + 1) * 2 ^ (Zdigits2 m - 53).
Proof.
  intros Hm Hd Hlo Hhi.
  set (k := Zdigits2 m - 53). assert (Hk : 0 <= k) by (unfold k; lia).
  assert (Hpk := pow2_pos k Hk).
  unfold binary_round_aux.
  destruct (shr_fexp_normal m e l Hm Hd Hlo) as (mrs1 & E1 & Hm1).
  fold k in E1, Hm1. rewrite E1.
  set (m1 := m / 2 ^ k) in *.
  assert (Hb1 : 2 ^ 52 <= m1 < 2 ^ 53).
  { assert (Hb := Zdigits2_bounds m Hm).
    assert (E52 : 2 ^ (Zdigits2 m - 1) = 2 ^ 52 * 2 ^ k).
    { rewrite <- Z.pow_add_r by lia. f_equal. unfold k. lia. }
    assert (E53 : 2 ^ Zdigits2 m = 2 ^ 53 * 2 ^ k).
    { rewrite <- Z.pow_add_r by lia. f_equal. unfold k. lia. }
    rewrite E52, E53 in Hb.
    unfold m1. split.
    - apply Z.div_le_lower_bound; lia.
    - apply Z.div_lt_upper_bound; lia. }
  set (m2 := round_nearest_even (shr_m mrs1) (loc_of_shr_record mrs1)).
  assert (Hm2 : m2 = m1 \/ m2 = m1 + 1).
  { unfold m2. rewrite Hm1. apply round_nearest_even_cases. }
  assert (Hc : m2 < 2 ^ 53 \/ m2 = 2 ^ 53) by lia.
  destruct Hc as [Hc | Hc].
  - assert (Hd2 : Zdigits2 m2 = 53) by (apply Zdigits2_unique; lia).
    destruct (shr_fexp_normal m2 (e + k) loc_Exact) as (mrs2 & E2 & Hm3); try lia.
    rewrite E2, Hm3, Hd2. change (53 - 53) with 0.
    rewrite Z.pow_0_r, Z.div_1_r.
    destruct m2 as [|p2|p2] eqn:Ep; try lia.
    exists p2, (e + k + 0).
    assert (Hle : (e + k + 0 <=? emax - prec) = true)
      by (apply Z.leb_le; unfold emax, prec, k; lia).
    rewrite Hle. split; [reflexivity|]. split; [lia|]. split; [lia|].
    replace (e + k + 0 - e) with k by lia. nia.
  - assert (Hd2 : Zdigits2 m2 = 54) by (apply Zdigits2_unique; [lia | rewrite Hc; lia]).
    destruct (shr_fexp_normal m2 (e + k) loc_Exact) as (mrs2 & E2 & Hm3); try lia.
    rewrite E2, Hm3, Hd2, Hc. change (2 ^ 53 / 2 ^ (54 - 53)) with (2 ^ 52).
    change (2 ^ 52) with (Z.pos 4503599627370496) at 1.
    cbv iota beta.
    exists 4503599627370496%positive, (e + k + (54 - 53)).
    assert (Hle : (e + k + (54 - 53) <=? emax - prec) = true)
      by (apply Z.leb_le; unfold emax, prec, k; lia).
    rewrite Hle. split; [reflexivity|]. split; [lia|]. split; [lia|].
    replace (e + k + (54 - 53) - e) with (k + 1) by lia.
    rewrite Z.pow_add_r by lia. change (2 ^ 1) with 2.
    change (Z.pos 4503599627370496) with (2 ^ 52). nia.
Qed.

Lemma Zdigits2_mul_pow2 (m j : Z) :
  0 < m -> 0 <= j -> Zdigits2 (m * 2 ^ j) = Zdigits2 m + j.
Proof.
  intros Hm Hj. assert (Hp := pow2_pos j Hj).
  rewrite !Zdigits2_log2 by nia.
  rewrite Z.log2_mul_pow2 by lia. lia.
Qed.

Lemma Zdigits2_le (m j : Z) : 0 < m -> m < 2 ^ j -> Zdigits2 m <= j.
Proof.
  intros Hm Hlt. rewrite Zdigits2_log2 by assumption.
  assert (Z.log2 m < j) by (apply Z.log2_lt_pow2; assumption). lia.
Qed.

Lemma Zdigits2_ge (m j : Z) : 0 <= j -> 2 ^ j <= m -> j + 1 <= Zdigits2 m.
Proof.
  intros Hj Hle. assert (Hp := pow2_pos j Hj).
  rewrite Zdigits2_log2 by lia.
  assert (j <= Z.log2 m) by (apply Z.log2_le_pow2; lia). lia.
Qed.

Lemma shl_align_le (p : positive) (e e' : Z) :
  e' <= e ->
  exists p', shl_align p e e' = (p', e') /\ Z.pos p' = Z.pos p * 2 ^ (e - e').
Proof.
  intros Hle. unfold shl_align.
  destruct (e' - e) as [|d|d] eqn:Hd; try lia.
  - exists p. replace e' with e by lia. split; [reflexivity|].
    rewrite Z.sub_diag, Z.pow_0_r. lia.
  - exists (shift_pos d p). split; [reflexivity|].
    rewrite shift_pos_correct. change (Z.pow_pos 2 d) with (2 ^ Z.pos d).
    replace (e - e') with (Z.pos d) by lia. lia.
Qed.

Lemma shl_align_gt (p : positive) (e e' : Z) :
  e < e' -> shl_align p e e' = (p, e).
Proof.
  intros Hlt. unfold shl_align. destruct (e' - e) as [|d|d] eqn:Hd; try lia; reflexivity.
Qed.

(** A 53-bit mantissa in the normal range is kept as it is. *)
Lemma binary_round_aux_exact (sx : bool) (p : positive) (e : Z) :
  Zdigits2 (Z.pos p) = 53 -> -1074 <= e <= 971 ->
  binary_round_aux prec emax sx (Z.pos p) e loc_Exact = S754_finite sx p e.
Proof.
  intros Hd He.
  assert (Hs : shr_fexp prec emax (Z.pos p) e loc_Exact =
               ({| shr_m := Z.pos p; shr_r := false; shr_s := false |}, e)).
  { unfold shr_fexp, fexp, emin, prec, emax. rewrite Hd.
    rewrite Z.max_l by lia.
    replace (53 + e - 53 - e) with 0 by lia. reflexivity. }
  unfold binary_round_aux. rewrite Hs. cbn [shr_m loc_of_shr_record round_nearest_even].
  rewrite Hs. cbn [shr_m].
  assert (Hle : (e <=? emax - prec) = true) by (apply Z.leb_le; unfold emax, prec; lia).
  now rewrite Hle.
Qed.

(** In the normal range [binary_round] returns a positive finite number
    with a 53-bit mantissa. *)
Lemma binary_round_normal (sx : bool) (p : positive) (e : Z) :
  -1074 <= Zdigits2 (Z.pos p) + e - 53 -> Zdigits2 (Z.pos p) + e <= 1023 ->
  exists m3 e3,
    binary_round prec emax sx p e = S754_finite sx m3 e3 /\
    2 ^ 52 <= Z.pos m3 < 2 ^ 53.
Proof.
  intros Hlo Hhi. unfold binary_round.
  change (Z.pos (digits2_pos p)) with (Zdigits2 (Z.pos p)).
  assert (Hf : fexp prec emax (Zdigits2 (Z.pos p) + e) = Zdigits2 (Z.pos p) + e - 53).
  { unfold fexp, emin, prec, emax. lia. }
  rewrite Hf.
  destruct (Z_le_gt_dec (Zdigits2 (Z.pos p)) 53) as [Hd | Hd].
  - destruct (shl_align_le p e (Zdigits2 (Z.pos p) + e - 53)) as (p' & E & Hp'); [lia|].
    rewrite E.
    assert (Hd' : Zdigits2 (Z.pos p') = 53).
    { rewrite Hp', Zdigits2_mul_pow2 by lia. lia. }
    rewrite binary_round_aux_exact by (assumption || lia).
    exists p', (Zdigits2 (Z.pos p) + e - 53). split; [reflexivity|].
    assert (Hb := Zdigits2_bounds (Z.pos p') ltac:(lia)).
    rewrite Hd' in Hb. exact Hb.
  - rewrite shl_align_gt by lia.
    destruct (binary_round_aux_normal sx (Z.pos p) e loc_Exact)
      as (m3 & e3 & E & Hb & _); try lia.
    exists m3, e3. split; assumption.
Qed.

(** Integers below 2^53 convert exactly. *)
Lemma binary_normalize_exact (n : Z) :
  1 <= n < 2 ^ 53 ->
  exists p,
    binary_normalize prec emax n 0 false =
      S754_finite false p (Zdigits2 n - 53) /\
    Z.pos p = n * 2 ^ (53 - Zdigits2 n) /\
    2 ^ 52 <= Z.pos p < 2 ^ 53.
Proof.
  intros [H1 Hn]. destruct n as [|q|q]; try lia.
  cbn [binary_normalize]. unfold binary_round.
  change (Z.pos (digits2_pos q)) with (Zdigits2 (Z.pos q)).
  assert (Hd : 1 <= Zdigits2 (Z.pos q) <= 53).
  { split; [apply (Zdigits2_ge (Z.pos q) 0); lia | apply Zdigits2_le; lia]. }
  assert (Hf : fexp prec emax (Zdigits2 (Z.pos q) + 0) = Zdigits2 (Z.pos q) - 53).
  { unfold fexp, emin, prec, emax. lia. }
  rewrite Hf.
  destruct (shl_align_le q 0 (Zdigits2 (Z.pos q) - 53)) as (p' & E & Hp'); [lia|].
  rewrite E.
  replace (0 - (Zdigits2 (Z.pos q) - 53)) with (53 - Zdigits2 (Z.pos q)) in Hp' by lia.
  assert (Hd' : Zdigits2 (Z.pos p') = 53).
  { rewrite Hp', Zdigits2_mul_pow2 by lia. lia. }
  rewrite binary_round_aux_exact by (assumption || lia).
  exists p'. split; [reflexivity|]. split; [assumption|].
  assert (Hb := Zdigits2_bounds (Z.pos p') ltac:(lia)).
  rewrite Hd' in Hb. exact Hb.
Qed.

Lemma mantissa_digits (p : positive) :
  2 ^ 52 <= Z.pos p < 2 ^ 53 -> Zdigits2 (Z.pos p) = 53.
Proof. intros Hp. apply Zdigits2_unique; [lia | exact Hp]. Qed.

Lemma SFdiv_normal (mx my : positive) (ex ey : Z) :
  2 ^ 52 <= Z.pos mx < 2 ^ 53 -> 2 ^ 52 <= Z.pos my < 2 ^ 53 ->
  -1021 <= ex - ey <= 1000 ->
  exists m3 e3,
    SFdiv prec emax (S754_finite false mx ex) (S754_finite false my ey) =
      S754_finite false m3 e3 /\
    2 ^ 52 <= Z.pos m3 < 2 ^ 53 /\
    ex - ey - 53 <= e3 <= ex - ey - 51.
Proof.
  intros Hx Hy He. cbn [SFdiv xorb]. unfold SFdiv_core_binary.
  rewrite (mantissa_digits mx Hx), (mantissa_digits my Hy).
  assert (Hf : Z.min (fexp prec emax (53 + ex - (53 + ey))) (ex - ey) = ex - ey - 53).
  { unfold fexp, emin, prec, emax. lia. }
  rewrite Hf.
  replace (ex - ey - (ex - ey - 53)) with 53 by lia.
  cbv zeta iota beta.
  rewrite Z.shiftl_mul_pow2 by lia.
  assert (Hdm := Z_div_mod (Z.pos mx * 2 ^ 53) (Z.pos my) ltac:(lia)).
  destruct (Z.div_eucl (Z.pos mx * 2 ^ 53) (Z.pos my)) as [q r].
  destruct Hdm as [Hq Hr].
  assert (Hqb : 2 ^ 52 <= q < 2 ^ 54) by nia.
  assert (Hdq : 53 <= Zdigits2 q <= 54).
  { split; [apply (Zdigits2_ge q 52); lia | apply Zdigits2_le; lia]. }
  destruct (binary_round_aux_normal false q (ex - ey - 53) (new_location (Z.pos my) r))
    as (m3 & e3 & E & Hb & He3 & _); try lia.
  exists m3, e3. split; [assumption|]. split; [assumption|]. lia.
Qed.

Lemma SFmul_normal (mx my : positive) (ex ey : Z) :
  2 ^ 52 <= Z.pos mx < 2 ^ 53 -> 2 ^ 52 <= Z.pos my < 2 ^ 53 ->
  -1100 <= ex + ey <= 900 ->
  exists m3 e3,
    SFmul prec emax (S754_finite false mx ex) (S754_finite false my ey) =
      S754_finite false m3 e3 /\
    2 ^ 52 <= Z.pos m3 < 2 ^ 53 /\
    ex + ey + 52 <= e3 <= ex + ey + 54 /\
    Z.pos mx * Z.pos my - 2 ^ 53 < Z.pos m3 * 2 ^ (e3 - (ex + ey))
      <= Z.pos mx * Z.pos my + 2 ^ 53.
Proof.
  intros Hx Hy He. cbn [SFmul xorb].
  rewrite Pos2Z.inj_mul.
  set (P := Z.pos mx * Z.pos my).
  assert (HP : 2 ^ 104 <= P < 2 ^ 106) by (unfold P; nia).
  assert (Hd : 105 <= Zdigits2 P <= 106).
  { split; [apply (Zdigits2_ge P 104); lia | apply Zdigits2_le; lia]. }
  destruct (binary_round_aux_normal false P (ex + ey) loc_Exact)
    as (m3 & e3 & E & Hb & He3 & Hv); try lia.
  exists m3, e3. split; [assumption|]. split; [assumption|]. split; [lia|].
  set (k := Zdigits2 P - 53) in *.
  assert (Hk : 0 <= k <= 53) by (unfold k; lia).
  assert (Hpk := pow2_pos k ltac:(lia)).
  assert (Hpk' : 2 ^ k <= 2 ^ 53) by (apply Z.pow_le_mono_r; lia).
  assert (Hdm := Z.div_mod P (2 ^ k) ltac:(lia)).
  assert (Hr := Z.mod_pos_bound P (2 ^ k) Hpk).
  nia.
Qed.

Lemma SFsub_pos (m1 m2 : positive) (e1 e2 c : Z) :
  Z.pos m1 < 2 ^ 53 ->
  -1000 <= c -> c <= e1 <= 900 -> c <= e2 <= 900 ->
  Z.pos m2 * 2 ^ (e2 - c) < Z.pos m1 * 2 ^ (e1 - c) ->
  exists m3 e3,
    SFsub prec emax (S754_finite false m1 e1) (S754_finite false m2 e2) =
      S754_finite false m3 e3.
Proof.
  intros Hm1 Hc He1 He2 Hlt. cbn [SFsub cond_Zopp].
  set (ez := Z.min e1 e2).
  destruct (shl_align_le m1 e1 ez) as (p1 & E1 & Hp1); [unfold ez; lia|].
  destruct (shl_align_le m2 e2 ez) as (p2 & E2 & Hp2); [unfold ez; lia|].
  rewrite E1, E2. cbn [fst].
  assert (Hz : 0 <= ez - c) by (unfold ez; lia).
  assert (Hpz := pow2_pos (ez - c) Hz).
  assert (Hs1 : Z.pos p1 * 2 ^ (ez - c) = Z.pos m1 * 2 ^ (e1 - c)).
  { rewrite Hp1, <- Z.mul_assoc, <- Z.pow_add_r by (unfold ez; lia).
    do 2 f_equal. lia. }
  assert (Hs2 : Z.pos p2 * 2 ^ (ez - c) = Z.pos m2 * 2 ^ (e2 - c)).
  { rewrite Hp2, <- Z.mul_assoc, <- Z.pow_add_r by (unfold ez; lia).
    do 2 f_equal. lia. }
  assert (HD : 0 < Z.pos p1 - Z.pos p2) by nia.
  destruct (Z.pos p1 - Z.pos p2) as [|pD|pD] eqn:ED; try lia.
  cbn [binary_normalize].
  assert (Hup : Z.pos pD < 2 ^ (53 + (e1 - ez))).
  { rewrite Z.pow_add_r by (unfold ez; lia).
    assert (0 < 2 ^ (e1 - ez)) by (apply pow2_pos; unfold ez; lia). nia. }
  assert (Hdig : 1 <= Zdigits2 (Z.pos pD) <= 53 + (e1 - ez)).
  { split; [apply (Zdigits2_ge (Z.pos pD) 0); lia |
            apply Zdigits2_le; [lia | assumption]]. }
  destruct (binary_round_normal false pD ez) as (m3 & e3 & E & _);
    try (unfold ez in *; lia).
  exists m3, e3. exact E.
Qed.

End F64Rounding.

(* ================================================================== *)
(** * The kernel in binary64 *)

Section KernelF64.

Import F64 F64Facts.
Local Open Scope arith_scope.

(** The accumulated sum of the loop never has its sign bit set. *)
Lemma integrate_loop_nonneg (fuel : nat) (start h : double) (steps : Z) :
  forall (i : Z) (sum : double),
    nonneg sum = true ->
    nonneg (snd (integrate_loop fuel start h steps i sum)) = true.
Proof.
  induction fuel as [|fuel IH]; intros i sum Hsum; [assumption|].
  cbn [integrate_loop]. destruct (i <? steps)%Z; [|assumption].
  apply IH. cbn [add div mul of_int F64_Arith].
  auto 6 with f64 zarith.
Qed.

Lemma calculate_partial_integral_nonneg (start end_ : double) (steps : Z) :
  nonneg (fdiv (fsub end_ start) (of_Z steps)) = true ->
  nonneg (calculate_partial_integral start end_ steps) = true.
Proof.
  intros Hh. unfold calculate_partial_integral.
  cbn [add sub div mul of_int F64_Arith].
  apply fmul_nonneg; [|assumption].
  apply integrate_loop_nonneg. reflexivity.
Qed.

(** With no step, the result is NaN for every interval. *)
Lemma calculate_partial_integral_0_nan (start end_ : double) :
  calculate_partial_integral start end_ 0 = nan.
Proof.
  rewrite calculate_partial_integral_0.
  cbn [sub div mul of_int F64_Arith].
  apply fmul_zero_fdiv_zero.
Qed.

(** Once NaN is in the accumulator it stays. *)
Lemma accumulate_nan (g : Z -> double) (order : list Z) :
  fold_left (fun acc j => acc + g j) order nan = nan.
Proof.
  induction order as [|j order IH]; [reflexivity|].
  cbn [fold_left]. change (nan + g j) with (fadd nan (g j)).
  now rewrite fadd_nan_l.
Qed.

End KernelF64.

(* ================================================================== *)
(** * The intervals of the threads *)

Section Intervals.

Import F64 F64Facts F64Rounding.
Local Open Scope arith_scope.

Lemma of_Z_exact (n : Z) :
  1 <= n < 2 ^ 53 ->
  exists p,
    of_Z n = S754_finite false p (Zdigits2 n - 53) /\
    Z.pos p = (n * 2 ^ (53 - Zdigits2 n))%Z /\
    2 ^ 52 <= Z.pos p < 2 ^ 53.
Proof. apply binary_normalize_exact. Qed.

Lemma int_digits (n : Z) : 1 <= n < 2 ^ 31 -> 1 <= Zdigits2 n <= 31.
Proof.
  intros Hn. split; [apply (Zdigits2_ge n 0); lia | apply Zdigits2_le; lia].
Qed.

(** 1.0 / num_threads is a normal positive number between 2^-31 and 1. *)
Lemma range_per_thread_normal (num_threads : Z) :
  1 <= num_threads < 2 ^ 31 ->
  exists mr er,
    range_per_thread (T:=double) num_threads = S754_finite false mr er /\
    2 ^ 52 <= Z.pos mr < 2 ^ 53 /\ -83 <= er <= -51.
Proof.
  intros Hn. unfold range_per_thread. cbn [of_int div F64_Arith].
  destruct (of_Z_exact num_threads ltac:(lia)) as (p & E & _ & Hp).
  assert (Hd := int_digits num_threads Hn).
  rewrite E. change (of_Z 1) with one. unfold one, fdiv.
  destruct (SFdiv_normal 4503599627370496 p (-52) (Zdigits2 num_threads - 53))
    as (mr & er & E' & Hb & He); try lia.
  exists mr, er. split; [assumption|]. split; [assumption | lia].
Qed.

(** i * range_per_thread is normal and within 2^83 units of 2^(er-52) of
    the exact product. *)
Lemma thread_bound_normal (i : Z) (mr : positive) (er : Z) :
  1 <= i < 2 ^ 31 -> 2 ^ 52 <= Z.pos mr < 2 ^ 53 -> -83 <= er <= -51 ->
  exists m3 e3,
    fmul (of_Z i) (S754_finite false mr er) = S754_finite false m3 e3 /\
    2 ^ 52 <= Z.pos m3 < 2 ^ 53 /\ er <= e3 <= er + 32 /\
    (i * 2 ^ 52 * Z.pos mr - 2 ^ 83 < Z.pos m3 * 2 ^ (e3 - er + 52)
     <= i * 2 ^ 52 * Z.pos mr + 2 ^ 83)%Z.
Proof.
  intros Hi Hmr Her.
  destruct (of_Z_exact i ltac:(lia)) as (p & E & Hpi & Hp).
  assert (Hd := int_digits i Hi).
  set (d := Zdigits2 i) in *.
  rewrite E. unfold fmul.
  destruct (SFmul_normal p mr (d - 53) er) as (m3 & e3 & E' & Hb & He & Hv);
    try lia.
  exists m3, e3. split; [assumption|]. split; [assumption|]. split; [lia|].
  assert (HB := pow2_pos (d - 1) ltac:(lia)).
  assert (HB30 : 2 ^ (d - 1) <= 2 ^ 30) by (apply Z.pow_le_mono_r; lia).
  assert (HXB : (2 ^ (53 - d) * 2 ^ (d - 1) = 2 ^ 52)%Z).
  { rewrite <- Z.pow_add_r by lia. f_equal. lia. }
  assert (HAB : (2 ^ (e3 - (d - 53 + er)) * 2 ^ (d - 1) = 2 ^ (e3 - er + 52))%Z).
  { rewrite <- Z.pow_add_r by lia. f_equal. lia. }
  rewrite <- HAB.
  set (A := 2 ^ (e3 - (d - 53 + er))) in *.
  set (B := 2 ^ (d - 1)) in *.
  set (X := 2 ^ (53 - d)) in *.
  assert (HpB : (Z.pos p * B = i * 2 ^ 52)%Z) by (rewrite Hpi; nia).
  assert (E1 : (i * 2 ^ 52 * Z.pos mr = Z.pos p * Z.pos mr * B)%Z) by nia.
  rewrite E1. rewrite (Z.mul_assoc (Z.pos m3) A B).
  assert (H83 : (2 ^ 53 * B <= 2 ^ 83)%Z) by lia.
  nia.
Qed.

(** Every thread gets an interval of positive finite width, and the
    first interval starts at +0.0. *)
Lemma interval_width_normal (num_steps num_threads i : Z) :
  1 <= num_threads < 2 ^ 31 -> 0 <= i < num_threads ->
  let w := dispatch (T:=double) num_steps num_threads i in
  pos_finite (fsub (w_end w) (w_start w)) = true /\
  (i = 0%Z -> w_start w = zero).
Proof.
  intros Hn Hi. cbn zeta. cbn [dispatch w_start w_end].
  cbn [of_int mul F64_Arith].
  destruct (range_per_thread_normal num_threads Hn) as (mr & er & Er & Hmr & Her).
  rewrite Er.
  destruct (thread_bound_normal (i + 1) mr er ltac:(lia) Hmr Her)
    as (m1 & e1 & E1 & Hb1 & He1 & Hv1).
  rewrite E1.
  destruct (Z.eq_dec i 0) as [-> | Hnz].
  - split; [reflexivity | intros _; reflexivity].
  - split; [|intros; contradiction].
    destruct (thread_bound_normal i mr er ltac:(lia) Hmr Her)
      as (m2 & e2 & E2 & Hb2 & He2 & Hv2).
    rewrite E2. unfold fsub.
    destruct (SFsub_pos m1 m2 e1 e2 (er - 52)) as (m3 & e3 & E3); try lia.
    + replace (e2 - (er - 52))%Z with (e2 - er + 52)%Z by lia.
      replace (e1 - (er - 52))%Z with (e1 - er + 52)%Z by lia.
      nia.
    + now rewrite E3.
Qed.

(** The step size of a thread that is given no step is +infinity. *)
Lemma zero_steps_step_size (num_steps num_threads i : Z) :
  1 <= num_threads < 2 ^ 31 -> 0 <= i < num_threads ->
  let w := dispatch (T:=double) num_steps num_threads i in
  fdiv (fsub (w_end w) (w_start w)) (of_Z 0) = pinf.
Proof.
  intros Hn Hi. cbn zeta.
  destruct (interval_width_normal num_steps num_threads i Hn Hi) as [Hw _].
  cbn zeta in Hw.
  destruct (fsub _ _) as [s|s| |[|] m e]; try discriminate. reflexivity.
Qed.

End Intervals.

(* ================================================================== *)
(** * The program in binary64 *)

Section Program.

Import F64 F64Facts F64Rounding.
Local Open Scope arith_scope.

Local Abbreviation run := (main_run (T:=double)).
Local Abbreviation cpi := (calculate_partial_integral (T:=double)).

Lemma accumulate_in_order_map (num_steps num_threads : Z) (order : list Z) :
  accumulate_in_order (T:=double) num_steps num_threads order =
  fold_left fadd
    (map (fun i => partial_result (dispatch num_steps num_threads i)) order)
    zero.
Proof.
  unfold accumulate_in_order. change (of_int (T:=double) 0) with zero.
  generalize zero. induction order as [|j order IH]; intros acc; [reflexivity|].
  cbn [fold_left map]. apply IH.
Qed.

Lemma valid_input (num_steps num_threads : Z) :
  1 <= num_steps -> 1 <= num_threads ->
  invalid_input num_steps num_threads = false.
Proof.
  intros Hs Ht. unfold invalid_input. apply orb_false_iff.
  split; apply Z.leb_gt; lia.
Qed.

Lemma steps_per_thread_div (num_steps num_threads : Z) :
  in_int num_threads -> 1 <= num_threads ->
  steps_per_thread num_steps num_threads = (num_steps / num_threads)%Z.
Proof.
  intros Hi Ht. unfold steps_per_thread.
  rewrite to_ull_pos; [reflexivity | lia | assumption].
Qed.

Lemma steps_per_thread_range (num_steps num_threads : Z) :
  in_ull num_steps -> in_int num_threads -> 1 <= num_threads ->
  in_ull (steps_per_thread num_steps num_threads).
Proof.
  intros [H0 Hlt] Hi Ht. rewrite steps_per_thread_div by assumption.
  unfold in_ull. split.
  - apply Z.div_pos; lia.
  - apply Z.le_lt_trans with num_steps; [|assumption].
    apply Z.div_le_upper_bound; nia.
Qed.

(** ** The model on concrete inputs *)

(** 1000 steps on [0,1] give 3.1415927369231227. *)
Example one_thousand_steps :
  cpi zero one 1000 = S754_finite false 7074237939678416 (-51).
Proof. vm_compute. reflexivity. Qed.

(** The order in which the threads take the lock can change the last bit
    of the sum: 3 steps on 3 threads. *)
Example lock_order_changes_the_sum :
  exists tr1 tr2,
    run 3 3 tr1 /\ run 3 3 tr2 /\
    printed_pi tr1 = Some (S754_finite false 7095081663725676 (-51)) /\
    printed_pi tr2 = Some (S754_finite false 7095081663725677 (-51)).
Proof.
  exists (main_scheduled 3 3 [0; 1; 2]%Z), (main_scheduled 3 3 [2; 1; 0]%Z).
  split; [|split; [|split]].
  - apply main_scheduled_run; [lia|]. apply Permutation_refl.
  - apply main_scheduled_run; [lia|]. change (indices 3) with [0; 1; 2]%Z.
    apply Permutation_sym, Permutation_rev.
  - vm_compute. reflexivity.
  - vm_compute. reflexivity.
Qed.

(** ** C1 *)

(** C1: on accepted input the program has a run, and in every run the
    value printed as the approximation of PI is the accumulator started
    at 0.0 to which the partial results of the threads 0 .. num_threads-1
    were added, each exactly once, in the order in which the threads took
    the lock; the partial result of thread i is [calculate_partial_integral]
    at i * (1.0 / num_threads), (i + 1) * (1.0 / num_threads) and
    num_steps / num_threads. *)
Theorem printed_pi_sums_partial_results (num_steps num_threads : Z) :
  in_ull num_steps -> in_int num_threads ->
  1 <= num_steps -> 1 <= num_threads ->
  (exists tr, run num_steps num_threads tr) /\
  (forall tr, run num_steps num_threads tr ->
     exists order,
       Permutation order (indices num_threads) /\
       List.length order = Z.to_nat num_threads /\
       printed_pi tr =
         Some (fold_left fadd
                 (map (fun i =>
                         cpi (fmul (of_Z i) (fdiv one (of_Z num_threads)))
                             (fmul (of_Z (i + 1)) (fdiv one (of_Z num_threads)))
                             (num_steps / num_threads)%Z)
                      order)
                 zero)).
Proof.
  intros Hs Ht H1 H2. split; [apply main_run_exists|].
  intros tr Hrun.
  destruct (main_run_valid _ _ tr (valid_input _ _ H1 H2) Hrun)
    as (order & Hperm & Hpi & _).
  exists order. split; [assumption|]. split.
  - rewrite (Permutation_length Hperm). apply indices_length.
  - rewrite Hpi, accumulate_in_order_map. do 2 f_equal.
    apply map_ext. intros i. unfold partial_result, dispatch. cbn [w_start w_end w_steps].
    now rewrite steps_per_thread_div.
Qed.

Lemma printed_pi_sums_partial_results_witness :
  (exists tr, run 4 2 tr) /\
  (forall tr, run 4 2 tr ->
     exists order,
       Permutation order (indices 2) /\
       List.length order = Z.to_nat 2 /\
       printed_pi tr =
         Some (fold_left fadd
                 (map (fun i =>
                         cpi (fmul (of_Z i) (fdiv one (of_Z 2)))
                             (fmul (of_Z (i + 1)) (fdiv one (of_Z 2)))
                             (4 / 2)%Z)
                      order)
                 zero)).
Proof.
  apply (printed_pi_sums_partial_results 4 2);
    unfold in_ull, in_int, ULLONG_MOD, INT_MIN, INT_MAX; lia.
Defined.

(** ** C2 *)

(** C2: for start <= end and 1 <= steps (an unsigned 64-bit value), the
    loop of [calculate_partial_integral] returns the midpoint rule as the
    specification words it: the samples 4 / (1 + x_i^2) at
    x_i = start + i*step_size + step_size/2 for i = 0 .. steps-1, added
    from left to right to 0.0, times step_size = (end - start) / steps,
    every operation in binary64. *)
Theorem calculate_partial_integral_refines_midpoint_rule
  (start end_ : double) (steps : Z) :
  leb start end_ = true -> 1 <= steps -> in_ull steps ->
  cpi start end_ steps = midpoint_rule start end_ steps.
Proof.
  intros _ H1 [_ Hlt]. apply calculate_partial_integral_midpoint. lia.
Qed.

Lemma calculate_partial_integral_refines_midpoint_rule_witness :
  cpi zero one 4 = midpoint_rule zero one 4.
Proof.
  apply calculate_partial_integral_refines_midpoint_rule;
    [reflexivity | lia | unfold in_ull, ULLONG_MOD; lia].
Defined.

(** ** C3 *)

(** C3: when num_threads <= 0 or num_steps <= 0 (the values stored in
    the two variables), the program has a run and every run consists of
    the two prompts, the error message on standard error and the return
    of status 1: no thread is launched, the accumulator is never written
    and nothing is printed as a result. *)
Theorem invalid_input_is_rejected (num_steps num_threads : Z) :
  in_ull num_steps -> in_int num_threads ->
  num_threads <= 0 \/ num_steps <= 0 ->
  (exists tr, run num_steps num_threads tr) /\
  (forall tr, run num_steps num_threads tr ->
     tr = [Stdout "Podaj liczbe podzialow (np. 1000000000): ";
           Stdout "Podaj liczbe watkow: ";
           Stderr "Liczba wątków i podziałów musi być dodatnia!";
           Return 1%Z] /\
     launched tr = [] /\ accumulated tr = [] /\
     printed_pi tr = None /\ exit_status tr = Some 1%Z).
Proof.
  intros _ _ Hbad. split; [apply main_run_exists|].
  intros tr Hrun.
  assert (Hv : invalid_input num_steps num_threads = true).
  { unfold invalid_input. apply orb_true_iff.
    destruct Hbad; [left | right]; now apply Z.leb_le. }
  rewrite (main_run_invalid _ _ tr Hv Hrun). repeat split.
Qed.

Lemma invalid_input_is_rejected_witness :
  (exists tr, run 0 4 tr) /\
  (forall tr, run 0 4 tr ->
     tr = [Stdout "Podaj liczbe podzialow (np. 1000000000): ";
           Stdout "Podaj liczbe watkow: ";
           Stderr "Liczba wątków i podziałów musi być dodatnia!";
           Return 1%Z] /\
     launched tr = [] /\ accumulated tr = [] /\
     printed_pi tr = None /\ exit_status tr = Some 1%Z).
Proof.
  apply (invalid_input_is_rejected 0 4);
    unfold in_ull, in_int, ULLONG_MOD, INT_MIN, INT_MAX; lia.
Defined.

(** ** C4 *)





(** ** C5 *)

Lemma accumulate_in_order_nan (num_steps num_threads : Z) (order : list Z) :
  order <> [] ->
  (forall j, In j order ->
     partial_result (dispatch (T:=double) num_steps num_threads j) = nan) ->
  accumulate_in_order (T:=double) num_steps num_threads order = nan.
Proof.
  intros Hne Hnan. destruct order as [|j order]; [congruence|].
  unfold accumulate_in_order. cbn [fold_left].
  rewrite (Hnan j (or_introl eq_refl)).
  apply (accumulate_nan (fun j => partial_result (dispatch num_steps num_threads j))).
Qed.

(** C5: with 1 <= num_steps < num_threads the validation accepts the
    input, the number of steps per thread is 0, and the program has a
    run; in every run each of the num_threads threads is launched with
    steps = 0 (so the precondition 1 <= steps does not hold), its
    step_size is the positive width of its interval divided by +0.0,
    which is +infinity, its partial result is 0.0 times this step_size,
    which is NaN, and the value printed is NaN. *)
Theorem fewer_steps_than_threads_prints_nan (num_steps num_threads : Z) :
  in_ull num_steps -> in_int num_threads ->
  1 <= num_steps -> num_steps < num_threads ->
  invalid_input num_steps num_threads = false /\
  steps_per_thread num_steps num_threads = 0%Z /\
  (exists tr, run num_steps num_threads tr) /\
  (forall tr, run num_steps num_threads tr ->
     List.length (launched tr) = Z.to_nat num_threads /\
     Forall (fun w =>
               w_steps w = 0%Z /\ ~ (1 <= w_steps w)%Z /\
               partial_result w =
                 fmul zero (fdiv (fsub (w_end w) (w_start w)) (of_Z 0)) /\
               pos_finite (fsub (w_end w) (w_start w)) = true /\
               fdiv (fsub (w_end w) (w_start w)) (of_Z 0) = pinf /\
               partial_result w = nan)
            (launched tr) /\
     printed_pi tr = Some nan).
Proof.
  intros Hs Ht H1 Hlt.
  assert (H2 : 1 <= num_threads) by lia.
  assert (Hspt : steps_per_thread num_steps num_threads = 0%Z).
  { rewrite steps_per_thread_div by assumption. apply Z.div_small. lia. }
  assert (Hnan : forall j,
             partial_result (dispatch (T:=double) num_steps num_threads j) = nan).
  { intros j. unfold partial_result. cbn [dispatch w_start w_end w_steps].
    rewrite Hspt. apply calculate_partial_integral_0_nan. }
  split; [now apply valid_input|]. split; [assumption|].
  split; [apply main_run_exists|].
  intros tr Hrun.
  destruct (main_run_valid _ _ tr (valid_input _ _ H1 H2) Hrun)
    as (order & Hperm & Hpi & Hl & _).
  split; [now rewrite Hl, length_map, indices_length|]. split.
  - rewrite Hl. apply Forall_forall. intros w Hw.
    apply in_map_iff in Hw. destruct Hw as (j & <- & Hj).
    apply indices_In in Hj.
    assert (Hn31 : 1 <= num_threads < 2 ^ 31)
      by (unfold in_int, INT_MAX in Ht; lia).
    split; [exact Hspt|]. split; [cbn [dispatch w_steps]; lia|]. split.
    + unfold partial_result. cbn [dispatch w_start w_end w_steps].
      rewrite Hspt. rewrite calculate_partial_integral_0. reflexivity.
    + split; [apply (interval_width_normal num_steps num_threads j Hn31 Hj)|].
      split; [apply (zero_steps_step_size num_steps num_threads j Hn31 Hj)|].
      apply Hnan.
  - rewrite Hpi. f_equal. apply accumulate_in_order_nan; [|intros; apply Hnan].
    intros ->. apply Permutation_nil in Hperm.
    assert (Hlen := indices_length num_threads). rewrite Hperm in Hlen.
    cbn in Hlen. lia.
Qed.

Lemma fewer_steps_than_threads_prints_nan_witness :
  invalid_input 3 4 = false /\
  steps_per_thread 3 4 = 0%Z /\
  (exists tr, run 3 4 tr) /\
  (forall tr, run 3 4 tr ->
     List.length (launched tr) = Z.to_nat 4 /\
     Forall (fun w =>
               w_steps w = 0%Z /\ ~ (1 <= w_steps w)%Z /\
               partial_result w =
                 fmul zero (fdiv (fsub (w_end w) (w_start w)) (of_Z 0)) /\
               pos_finite (fsub (w_end w) (w_start w)) = true /\
               fdiv (fsub (w_end w) (w_start w)) (of_Z 0) = pinf /\
               partial_result w = nan)
            (launched tr) /\
     printed_pi tr = Some nan).
Proof.
  apply (fewer_steps_than_threads_prints_nan 3 4);
    unfold in_ull, in_int, ULLONG_MOD, INT_MIN, INT_MAX; lia.
Defined.

(** ** C7 *)

(** C7: with one thread and 1 <= num_steps the program has a run, and in
    every run the only thread is launched on start = 0.0, end = 1.0 with
    num_steps steps and the value printed is exactly
    [calculate_partial_integral 0.0 1.0 num_steps]: adding it to the
    accumulator 0.0 changes no bit, because the result is not a negative
    zero. *)
Theorem single_thread_is_one_integral (num_steps : Z) :
  1 <= num_steps -> in_ull num_steps ->
  (exists tr, run num_steps 1 tr) /\
  (forall tr, run num_steps 1 tr ->
     launched tr = [{| w_start := zero; w_end := one; w_steps := num_steps |}] /\
     printed_pi tr = Some (cpi zero one num_steps)).
Proof.
  intros H1 Hs. split; [apply main_run_exists|].
  intros tr Hrun.
  destruct (main_run_valid _ _ tr (valid_input _ _ H1 (Z.le_refl 1)) Hrun)
    as (order & Hperm & Hpi & Hl & _).
  assert (Hd : dispatch (T:=double) num_steps 1 0 =
               {| w_start := zero; w_end := one; w_steps := num_steps |}).
  { unfold dispatch, steps_per_thread. f_equal.
    change (to_ull 1) with 1%Z. apply Z.div_1_r. }
  split.
  - rewrite Hl. change (indices 1) with [0%Z]. cbn [map]. now rewrite Hd.
  - rewrite Hpi. f_equal.
    change (indices 1) with [0%Z] in Hperm.
    apply Permutation_sym, Permutation_length_1_inv in Hperm. subst order.
    unfold accumulate_in_order. cbn [fold_left].
    rewrite Hd. unfold partial_result. cbn [w_start w_end w_steps].
    apply fadd_zero_l. apply calculate_partial_integral_nonneg.
    apply fdiv_nonneg; [reflexivity | apply of_Z_nonneg; lia].
Qed.

Lemma single_thread_is_one_integral_witness :
  (exists tr, run 8 1 tr) /\
  (forall tr, run 8 1 tr ->
     launched tr = [{| w_start := zero; w_end := one; w_steps := 8 |}] /\
     printed_pi tr = Some (cpi zero one 8)).
Proof.
  apply (single_thread_is_one_integral 8);
    unfold in_ull, ULLONG_MOD; lia.
Defined.

(** ** C6 *)

Lemma read_ull_stored (entered : Z) :
  - ULLONG_MOD < entered < ULLONG_MOD ->
  read_ull entered =
    ((if entered <? 0 then ULLONG_MOD + entered else entered)%Z, true).
Proof.
  intros [Hlo Hhi]. unfold read_ull.
  assert (Hr : ((- ULLONG_MOD <? entered) && (entered <? ULLONG_MOD))%Z = true).
  { apply andb_true_iff. split; now apply Z.ltb_lt. }
  rewrite Hr. f_equal. unfold wrap64.
  destruct (Z.ltb_spec entered 0).
  - rewrite <- (Z.mod_add entered 1 ULLONG_MOD) by (unfold ULLONG_MOD; lia).
    rewrite Z.mod_small; lia.
  - apply Z.mod_small. lia.
Qed.

Lemma read_int_stored (entered : Z) :
  in_int entered -> read_int entered = entered.
Proof.
  intros [Hlo Hhi]. unfold read_int.
  destruct (Z.ltb_spec entered INT_MIN); [lia|].
  destruct (Z.ltb_spec INT_MAX entered); [lia|]. reflexivity.
Qed.

Lemma read_int_in_int (entered : Z) : in_int (read_int entered).
Proof.
  unfold read_int, in_int.
  destruct (Z.ltb_spec entered INT_MIN); [unfold INT_MIN, INT_MAX; lia|].
  destruct (Z.ltb_spec INT_MAX entered); unfold INT_MIN, INT_MAX in *; lia.
Qed.

Lemma read_int_nonpositive (entered : Z) :
  entered <= 0 -> read_int entered <= 0.
Proof.
  intros Hneg. unfold read_int.
  destruct (Z.ltb_spec entered INT_MIN); [unfold INT_MIN; lia|].
  destruct (Z.ltb_spec INT_MAX entered); [unfold INT_MAX in *; lia | assumption].
Qed.

Lemma program_run (entered_steps entered_threads : Z) (tr : list (event double)) :
  - ULLONG_MOD < entered_steps < ULLONG_MOD ->
  program entered_steps entered_threads tr <->
  run (if entered_steps <? 0 then ULLONG_MOD + entered_steps else entered_steps)%Z
      (read_int entered_threads) tr.
Proof.
  intros Hs. unfold program.
  rewrite (read_ull_stored _ Hs). reflexivity.
Qed.

(** Whatever is entered, the program has a run. *)
Lemma program_has_a_run (entered_steps entered_threads : Z) :
  exists tr, program (T:=double) entered_steps entered_threads tr.
Proof.
  unfold program. destruct (read_ull entered_steps) as [num_steps [|]].
  - apply main_run_exists.
  - destruct (main_run_exists (T:=double) num_steps 1) as [tr Hrun].
    exists tr, 1. split; [unfold in_int, INT_MIN, INT_MAX; lia | exact Hrun].
Qed.

(** C6: the claim and the error message ask for a rejection of a negative
    num_steps, and the code does not give it.  The entry -5 for num_steps
    is stored in the unsigned variable as 2^64 - 5; with the entry 1 for
    num_threads the test [num_steps <= 0] is false, a thread is launched
    with 18446744073709551611 steps and the program returns 0: no run is
    the error run. *)
Lemma negative_steps_entry_is_accepted :
  (exists tr, program (T:=double) (-5) 1 tr) /\
  (forall tr, program (T:=double) (-5) 1 tr ->
     tr <> rejected /\
     launched tr =
       [{| w_start := zero; w_end := one; w_steps := 18446744073709551611 |}] /\
     exit_status tr = Some 0%Z).
Proof.
  assert (Hs : - ULLONG_MOD < -5 < ULLONG_MOD) by (unfold ULLONG_MOD; lia).
  split; [apply program_has_a_run|].
  intros tr Hrun. apply (program_run (-5) 1 tr Hs) in Hrun.
  change (if -5 <? 0 then ULLONG_MOD + -5 else -5)%Z
    with 18446744073709551611%Z in Hrun.
  change (read_int 1) with 1%Z in Hrun.
  destruct (main_run_valid _ _ tr
              (valid_input 18446744073709551611 1 ltac:(lia) ltac:(lia)) Hrun)
    as (order & _ & Hpi & Hl & _ & Hexit).
  split; [|split; assumption].
  intros ->. discriminate Hexit.
Qed.

(** The entries the validation does reject: 0 for num_steps, and 0 or any
    negative number for num_threads, those below the range of [int]
    included (they are stored as INT_MIN).  Every run is then the error
    run. *)
Lemma zero_steps_or_nonpositive_threads_entry (entered_steps entered_threads : Z) :
  - ULLONG_MOD < entered_steps < ULLONG_MOD ->
  entered_steps = 0%Z \/ entered_threads <= 0 ->
  forall tr, program (T:=double) entered_steps entered_threads tr ->
    tr = rejected /\ launched tr = [] /\ accumulated tr = [] /\
    printed_pi tr = None /\ exit_status tr = Some 1%Z.
Proof.
  intros Hs Hbad tr Hrun.
  apply program_run in Hrun; [|assumption].
  set (stored := (if entered_steps <? 0 then ULLONG_MOD + entered_steps
                  else entered_steps)%Z) in *.
  assert (Hv : invalid_input stored (read_int entered_threads) = true).
  { unfold invalid_input. apply orb_true_iff.
    destruct Hbad as [E | Hneg]; [right | left]; apply Z.leb_le.
    - unfold stored. rewrite E. reflexivity.
    - now apply read_int_nonpositive. }
  rewrite (main_run_invalid _ _ tr Hv Hrun). repeat split.
Qed.

(** Every other entry for num_steps that can be read is accepted: a
    nonzero entry, negative ones included, with num_threads >= 1
    launches the threads and returns 0. *)
Lemma nonzero_steps_entry_is_accepted (entered_steps entered_threads : Z) :
  - ULLONG_MOD < entered_steps < ULLONG_MOD ->
  entered_steps <> 0%Z -> 1 <= entered_threads ->
  forall tr, program (T:=double) entered_steps entered_threads tr ->
    tr <> rejected /\
    List.length (launched tr) = Z.to_nat (read_int entered_threads) /\
    exit_status tr = Some 0%Z.
Proof.
  intros Hs Hnz Hpos tr Hrun.
  apply program_run in Hrun; [|assumption].
  set (stored := (if entered_steps <? 0 then ULLONG_MOD + entered_steps
                  else entered_steps)%Z) in *.
  assert (Hst : 1 <= stored).
  { unfold stored. destruct (Z.ltb_spec entered_steps 0); lia. }
  assert (Hth : 1 <= read_int entered_threads).
  { unfold read_int.
    destruct (Z.ltb_spec entered_threads INT_MIN); [unfold INT_MIN in *; lia|].
    destruct (Z.ltb_spec INT_MAX entered_threads); [unfold INT_MAX; lia | assumption]. }
  destruct (main_run_valid _ _ tr (valid_input _ _ Hst Hth) Hrun)
    as (order & _ & Hpi & Hl & _ & Hexit).
  split; [|split].
  - intros ->. discriminate Hexit.
  - now rewrite Hl, length_map, indices_length.
  - assumption.
Qed.

(** ** C8 in binary64 *)

(** C8, as stated, fails in binary64.  On start = 0.0, end = 2^-1074 and
    2 steps the step size underflows to 0.0 and the result is 0.0: not
    above 0 and below 2*(end-start).  On start = 0.0, end = 7 * 2^-40
    and 25 steps every sample rounds to 4.0 and the result is above
    4*(end-start). *)
Lemma binary64_partial_integral_leaves_bounds :
  (valid min_subnormal = true /\
   leb zero zero = true /\ ltb zero min_subnormal = true /\
   leb min_subnormal one = true /\
   cpi zero min_subnormal 2 = zero /\
   ltb zero (cpi zero min_subnormal 2) = false /\
   leb (fmul (of_Z 2) (fsub min_subnormal zero)) (cpi zero min_subnormal 2)
     = false) /\
  (valid (dyadic 7 (-40)) = true /\
   leb zero zero = true /\ ltb zero (dyadic 7 (-40)) = true /\
   leb (dyadic 7 (-40)) one = true /\
   ltb (fmul (of_Z 4) (fsub (dyadic 7 (-40)) zero))
       (cpi zero (dyadic 7 (-40)) 25) = true).
Proof. vm_compute. repeat split. Qed.

(** The upper bound is reached with normal numbers as well: one step on
    [0, 2^-30] returns exactly 4*(end-start). *)
Example binary64_partial_integral_reaches_bound :
  cpi zero (dyadic 1 (-30)) 1 = fmul (of_Z 4) (fsub (dyadic 1 (-30)) zero).
Proof. vm_compute. reflexivity. Qed.

(** What is left of the lower bound in binary64: for valid doubles
    0 <= start < end the result is never negative. *)
Lemma fsub_nonneg_ordered (start end_ : double) :
  valid start = true -> valid end_ = true ->
  leb zero start = true -> ltb start end_ = true ->
  nonneg (fsub end_ start) = true.
Proof.
  intros Hvs Hve H0 Hlt.
  destruct start as [ss|[|]| |[|] ms es]; try discriminate;
    destruct end_ as [se|[|]| |[|] me ee]; try discriminate; try reflexivity.
  unfold ltb, SFltb in Hlt. cbn [SFcompare] in Hlt.
  unfold valid, valid_binary, bounded, canonical_mantissa, fexp, emin, prec, emax
    in Hvs, Hve.
  apply andb_true_iff in Hvs, Hve.
  destruct Hvs as [Hcs _], Hve as [Hce _].
  apply Z.eqb_eq in Hcs, Hce.
  change (Z.pos (digits2_pos ms)) with (Zdigits2 (Z.pos ms)) in Hcs.
  change (Z.pos (digits2_pos me)) with (Zdigits2 (Z.pos me)) in Hce.
  unfold fsub. cbn [SFsub cond_Zopp].
  set (ez := Z.min ee es).
  destruct (shl_align_le me ee ez) as (pe & Ee & Hpe); [unfold ez; lia|].
  destruct (shl_align_le ms es ez) as (ps & Es & Hps); [unfold ez; lia|].
  rewrite Ee, Es. cbn [fst].
  assert (Hge : (Z.pos ps <= Z.pos pe)%Z).
  { destruct (Z.compare_spec es ee) as [Heq | Hlo | Hhi]; try discriminate.
    - subst ee. assert (Hm : (ms < me)%positive).
      { change (Pos.compare_cont Eq ms me) with (Pos.compare ms me) in Hlt.
        destruct (Pos.compare_spec ms me); try discriminate. assumption. }
      replace (es - ez)%Z with 0%Z in Hpe, Hps by (unfold ez; lia).
      rewrite Z.pow_0_r in Hpe, Hps. lia.
    - replace (es - ez)%Z with 0%Z in Hps by (unfold ez; lia).
      rewrite Z.pow_0_r in Hps.
      assert (Hds : (Zdigits2 (Z.pos ms) <= 53)%Z) by lia.
      assert (Hde : Zdigits2 (Z.pos me) = 53%Z) by lia.
      assert (Hbs := Zdigits2_bounds (Z.pos ms) ltac:(lia)).
      assert (Hbe := Zdigits2_bounds (Z.pos me) ltac:(lia)).
      rewrite Hde in Hbe. change (53 - 1)%Z with 52%Z in Hbe.
      assert (Hs53 : (Z.pos ms < 2 ^ 53)%Z).
      { apply Z.lt_le_trans with (2 ^ Zdigits2 (Z.pos ms))%Z; [lia|].
        apply Z.pow_le_mono_r; lia. }
      assert (H2 : (2 ^ 1 <= 2 ^ (ee - ez))%Z)
        by (apply Z.pow_le_mono_r; unfold ez; lia).
      change (2 ^ 1)%Z with 2%Z in H2. nia. }
  destruct (Z.pos pe - Z.pos ps)%Z as [|pD|pD] eqn:ED; try lia.
  - reflexivity.
  - cbn [binary_normalize]. apply binary_round_nonneg.
Qed.

Lemma binary64_partial_integral_not_negative (start end_ : double) (steps : Z) :
  valid start = true -> valid end_ = true ->
  leb zero start = true -> ltb start end_ = true -> 0 <= steps ->
  ltb (cpi start end_ steps) zero = false.
Proof.
  intros Hvs Hve H0 Hlt Hn.
  assert (Hnn : nonneg (cpi start end_ steps) = true).
  { apply calculate_partial_integral_nonneg. apply fdiv_nonneg.
    - now apply fsub_nonneg_ordered.
    - now apply of_Z_nonneg. }
  destruct (cpi start end_ steps) as [[|]|[|]| |[|] m e]; try discriminate; reflexivity.
Qed.

(** ** C9 *)

Lemma nth_dispatch (num_steps num_threads i : Z) (d : worker double) :
  0 <= i < num_threads ->
  nth (Z.to_nat i) (map (dispatch num_steps num_threads) (indices num_threads)) d =
  dispatch num_steps num_threads i.
Proof.
  intros Hi. unfold indices. rewrite map_map.
  rewrite (nth_indep _ d (dispatch num_steps num_threads (Z.of_nat 0)))
    by (rewrite length_map, length_seq; lia).
  rewrite (map_nth (fun k => dispatch num_steps num_threads (Z.of_nat k))).
  rewrite seq_nth by lia. cbn [Nat.add]. now rewrite Z2Nat.id by lia.
Qed.

(** C9, as stated, fails: with 49 threads the last interval ends at
    49 * (1.0 / 49) = 1 - 2^-53, the double below 1.0. *)
Lemma last_interval_of_49_ends_below_one :
  (exists tr, run 49 49 tr) /\
  (forall tr, run 49 49 tr ->
     w_end (nth 48 (launched tr) {| w_start := zero; w_end := zero; w_steps := 0 |})
       = S754_finite false 9007199254740991 (-53) /\
     w_end (nth 48 (launched tr) {| w_start := zero; w_end := zero; w_steps := 0 |})
       <> one /\
     ltb (w_end (nth 48 (launched tr)
                   {| w_start := zero; w_end := zero; w_steps := 0 |})) one = true).
Proof.
  split; [apply main_run_exists|].
  intros tr Hrun.
  destruct (main_run_valid _ _ tr (valid_input 49 49 ltac:(lia) ltac:(lia)) Hrun)
    as (order & _ & _ & Hl & _).
  rewrite Hl.
  change 48%nat with (Z.to_nat 48). rewrite nth_dispatch by lia.
  assert (E : w_end (dispatch (T:=double) 49 49 48) =
              S754_finite false 9007199254740991 (-53)) by (vm_compute; reflexivity).
  rewrite E. split; [reflexivity|]. split; [discriminate | reflexivity].
Qed.

Lemma power_of_two_threads_end_at_one (k : Z) :
  0 <= k <= 30 -> fmul (of_Z (2 ^ k)) (fdiv one (of_Z (2 ^ k))) = one.
Proof.
  intros Hk. assert (Hin : In k (indices 31)) by (apply indices_In; lia).
  vm_compute in Hin.
  repeat (destruct Hin as [<- | Hin]; [vm_compute; reflexivity|]).
  contradiction.
Qed.

(** C9, amended: the intervals handed to the threads are contiguous (the
    end of thread i and the start of thread i+1 are the same double),
    every interval has a positive finite width, and thread 0 starts at
    exactly 0.0; thread num_threads-1 ends at num_threads * (1.0 /
    num_threads) evaluated in binary64, which is exactly 1.0 when
    num_threads is a power of two. *)
Theorem thread_intervals_are_contiguous (num_steps num_threads : Z) :
  in_ull num_steps -> in_int num_threads ->
  1 <= num_steps -> 1 <= num_threads ->
  (exists tr, run num_steps num_threads tr) /\
  (forall tr d, run num_steps num_threads tr ->
     List.length (launched tr) = Z.to_nat num_threads /\
     (forall i, 0 <= i -> i + 1 < num_threads ->
        w_end (nth (Z.to_nat i) (launched tr) d) =
        w_start (nth (Z.to_nat (i + 1)) (launched tr) d)) /\
     (forall i, 0 <= i < num_threads ->
        pos_finite (fsub (w_end (nth (Z.to_nat i) (launched tr) d))
                         (w_start (nth (Z.to_nat i) (launched tr) d))) = true) /\
     w_start (nth 0 (launched tr) d) = zero /\
     w_end (nth (Z.to_nat (num_threads - 1)) (launched tr) d) =
       fmul (of_Z num_threads) (fdiv one (of_Z num_threads)) /\
     (forall k, 0 <= k <= 30 -> num_threads = 2 ^ k ->
        w_end (nth (Z.to_nat (num_threads - 1)) (launched tr) d) = one)).
Proof.
  intros Hs Ht H1 H2. split; [apply main_run_exists|].
  intros tr d Hrun.
  destruct (main_run_valid _ _ tr (valid_input _ _ H1 H2) Hrun)
    as (order & _ & _ & Hl & _).
  assert (Hn31 : 1 <= num_threads < 2 ^ 31)
    by (unfold in_int, INT_MAX in Ht; lia).
  assert (Hlast : w_end (nth (Z.to_nat (num_threads - 1)) (launched tr) d) =
                  fmul (of_Z num_threads) (fdiv one (of_Z num_threads))).
  { rewrite Hl, nth_dispatch by lia. cbn [dispatch w_end].
    replace (num_threads - 1 + 1)%Z with num_threads by lia. reflexivity. }
  rewrite Hl in *.
  split; [now rewrite length_map, indices_length|].
  split; [|split; [|split; [|split]]].
  - intros i Hi0 Hi1. rewrite !nth_dispatch by lia. reflexivity.
  - intros i Hi. rewrite nth_dispatch by lia.
    apply (interval_width_normal num_steps num_threads i Hn31 Hi).
  - change 0%nat with (Z.to_nat 0). rewrite nth_dispatch by lia.
    now apply (interval_width_normal num_steps num_threads 0 Hn31 ltac:(lia)).
  - exact Hlast.
  - intros k Hk ->. rewrite Hlast. now apply power_of_two_threads_end_at_one.
Qed.

Lemma thread_intervals_are_contiguous_witness :
  (exists tr, run 8 4 tr) /\
  (forall tr d, run 8 4 tr ->
     List.length (launched tr) = Z.to_nat 4 /\
     (forall i, 0 <= i -> i + 1 < 4 ->
        w_end (nth (Z.to_nat i) (launched tr) d) =
        w_start (nth (Z.to_nat (i + 1)) (launched tr) d)) /\
     (forall i, 0 <= i < 4 ->
        pos_finite (fsub (w_end (nth (Z.to_nat i) (launched tr) d))
                         (w_start (nth (Z.to_nat i) (launched tr) d))) = true) /\
     w_start (nth 0 (launched tr) d) = zero /\
     w_end (nth (Z.to_nat (4 - 1)) (launched tr) d) =
       fmul (of_Z 4) (fdiv one (of_Z 4)) /\
     (forall k, 0 <= k <= 30 -> 4%Z = 2 ^ k ->
        w_end (nth (Z.to_nat (4 - 1)) (launched tr) d) = one)).
Proof.
  apply (thread_intervals_are_contiguous 8 4);
    unfold in_ull, in_int, ULLONG_MOD, INT_MIN, INT_MAX; lia.
Defined.

End Program.


(* ================================================================== *)
(** * Further properties of the parallel phase *)

Section TraceFacts.

Context {T : Type} {AT : Arith T}.
Variables num_steps num_threads : Z.

Local Abbreviation step := (pstep (T:=T) num_steps num_threads).
Local Abbreviation steps := (psteps (T:=T) num_steps num_threads).
Local Abbreviation disp := (dispatch (T:=T) num_steps num_threads).









Lemma scheduled_trace_events (order : list Z) :
  Forall (fun ev : event T => is_launch ev = true \/ is_accumulate ev = true)
    (scheduled_trace num_steps num_threads order).
Proof.
  unfold scheduled_trace. apply Forall_app. split; apply Forall_forall;
    intros ev Hev; apply in_map_iff in Hev; destruct Hev as (j & <- & _); auto.
Qed.

Lemma printed_pi_main_scheduled (order : list Z) :
  invalid_input num_steps num_threads = false ->
  printed_pi (main_scheduled (T:=T) num_steps num_threads order) =
  Some (accumulate_in_order num_steps num_threads order).
Proof.
  intros Hv. unfold main_scheduled. rewrite Hv.
  cbn [app printed_pi]. rewrite printed_pi_parallel by apply scheduled_trace_events.
  reflexivity.
Qed.

Lemma accumulated_main_scheduled (order : list Z) :
  invalid_input num_steps num_threads = false ->
  accumulated (main_scheduled (T:=T) num_steps num_threads order) =
  map (fun j => partial_result (disp j)) order.
Proof.
  intros Hv. unfold main_scheduled. rewrite Hv.
  rewrite accumulated_parallel. unfold scheduled_trace.
  rewrite accumulated_app.
  assert (E1 : forall l : list Z, accumulated (map (fun j => Launch (disp j)) l) = []).
  { induction l as [|j l IH]; [reflexivity | exact IH]. }
  assert (E2 : forall l : list Z,
             accumulated (map (fun j => Accumulate (partial_result (disp j))) l) =
             map (fun j => partial_result (disp j)) l).
  { induction l as [|j l IH]; [reflexivity|]. cbn [map]. cbn. now rewrite <- IH. }
  now rewrite E1, E2.
Qed.


End TraceFacts.

(* ================================================================== *)
(** * Further properties of the program in binary64 *)

Section ProgramFacts.

Import F64 F64Facts F64Rounding.

Local Abbreviation run := (main_run (T:=double)).
Local Abbreviation cpi := (calculate_partial_integral (T:=double)).

(** The partial result of thread i as the source computes it. *)
Lemma partial_result_dispatch (num_steps num_threads i : Z) :
  in_int num_threads -> 1 <= num_threads ->
  partial_result (dispatch (T:=double) num_steps num_threads i) =
  cpi (fmul (of_Z i) (fdiv one (of_Z num_threads)))
      (fmul (of_Z (i + 1)) (fdiv one (of_Z num_threads)))
      (num_steps / num_threads).
Proof.
  intros Ht H2. unfold partial_result, dispatch. cbn [w_start w_end w_steps].
  now rewrite steps_per_thread_div.
Qed.

(** X1: on accepted input every order of the thread indices is the lock
    order of some run: for each permutation of 0 .. num_threads-1 there
    is a run that adds the partial results in this order, prints the sum
    so obtained from 0.0 and returns 0. *)
Theorem every_lock_order_is_a_run (num_steps num_threads : Z) (order : list Z) :
  in_ull num_steps -> in_int num_threads ->
  1 <= num_steps -> 1 <= num_threads ->
  Permutation order (indices num_threads) ->
  exists tr,
    run num_steps num_threads tr /\
    accumulated tr =
      map (fun i =>
             cpi (fmul (of_Z i) (fdiv one (of_Z num_threads)))
                 (fmul (of_Z (i + 1)) (fdiv one (of_Z num_threads)))
                 (num_steps / num_threads)) order /\
    printed_pi tr =
      Some (fold_left fadd
              (map (fun i =>
                      cpi (fmul (of_Z i) (fdiv one (of_Z num_threads)))
                          (fmul (of_Z (i + 1)) (fdiv one (of_Z num_threads)))
                          (num_steps / num_threads)) order)
              zero) /\
    exit_status tr = Some 0.
Proof.
  intros Hs Ht H1 H2 Hperm.
  assert (Hv := valid_input _ _ H1 H2).
  assert (Hmap : map (fun j => partial_result (dispatch (T:=double) num_steps num_threads j)) order =
                 map (fun i =>
                        cpi (fmul (of_Z i) (fdiv one (of_Z num_threads)))
                            (fmul (of_Z (i + 1)) (fdiv one (of_Z num_threads)))
                            (num_steps / num_threads)) order).
  { apply map_ext. intros i. now apply partial_result_dispatch. }
  exists (main_scheduled num_steps num_threads order).
  split; [apply main_scheduled_run; [lia | assumption]|].
  split; [|split].
  - now rewrite accumulated_main_scheduled.
  - rewrite printed_pi_main_scheduled by assumption.
    now rewrite accumulate_in_order_map, Hmap.
  - unfold main_scheduled. rewrite Hv. apply exit_status_report.
Qed.

Lemma every_lock_order_is_a_run_witness :
  exists tr,
    run 4 2 tr /\
    accumulated tr =
      map (fun i =>
             cpi (fmul (of_Z i) (fdiv one (of_Z 2)))
                 (fmul (of_Z (i + 1)) (fdiv one (of_Z 2)))
                 (4 / 2)) [1; 0] /\
    printed_pi tr =
      Some (fold_left fadd
              (map (fun i =>
                      cpi (fmul (of_Z i) (fdiv one (of_Z 2)))
                          (fmul (of_Z (i + 1)) (fdiv one (of_Z 2)))
                          (4 / 2)) [1; 0])
              zero) /\
    exit_status tr = Some 0.
Proof.
  apply (every_lock_order_is_a_run 4 2 [1; 0]);
    try (unfold in_ull, in_int, ULLONG_MOD, INT_MIN, INT_MAX; lia).
  change (indices 2) with [0; 1]. apply perm_swap.
Defined.



(** ** NaN in the kernel *)

Lemma fmul_nan_r (x : double) : fmul x nan = nan.
Proof. now destruct x as [[|]|[|]| |[|] mx ex]. Qed.

Lemma fsub_nan_l (x : double) : fsub nan x = nan.
Proof. reflexivity. Qed.

Lemma fsub_nan_r (x : double) : fsub x nan = nan.
Proof. now destruct x as [[|]|[|]| |[|] mx ex]. Qed.

Lemma fdiv_nan_l (x : double) : fdiv nan x = nan.
Proof. reflexivity. Qed.

(** X3: [calculate_partial_integral] checks none of its arguments.  With
    steps = 0 it returns NaN for every start and end (the empty sum 0.0
    times a step size that is an infinity or NaN), and when start or end
    is NaN it returns NaN for every number of steps. *)
Theorem calculate_partial_integral_nan_cases :
  (forall start end_, cpi start end_ 0 = nan) /\
  (forall end_ steps, cpi nan end_ steps = nan) /\
  (forall start steps, cpi start nan steps = nan).
Proof.
  split; [apply calculate_partial_integral_0_nan|].
  split; intros x steps; unfold calculate_partial_integral;
    cbn [sub div mul of_int F64_Arith].
  - now rewrite fsub_nan_r, fdiv_nan_l, fmul_nan_r.
  - now rewrite fsub_nan_l, fdiv_nan_l, fmul_nan_r.
Qed.

(** ** The sign of the printed value *)

Lemma pos_finite_nonneg (x : double) : pos_finite x = true -> nonneg x = true.
Proof. destruct x as [[|]|[|]| |[|] mx ex]; now cbn. Qed.

Lemma nonneg_not_below_zero (x : double) : nonneg x = true -> ltb x zero = false.
Proof. destruct x as [[|]|[|]| |[|] mx ex]; now cbn. Qed.

Lemma partial_result_nonneg (num_steps num_threads i : Z) :
  in_ull num_steps -> in_int num_threads -> 1 <= num_threads ->
  0 <= i < num_threads ->
  nonneg (partial_result (dispatch (T:=double) num_steps num_threads i)) = true.
Proof.
  intros Hs Ht H2 Hi. unfold partial_result.
  assert (Hn31 : 1 <= num_threads < 2 ^ 31)
    by (unfold in_int, INT_MAX in Ht; lia).
  destruct (interval_width_normal num_steps num_threads i Hn31 Hi) as [Hw _].
  cbn zeta in Hw.
  apply calculate_partial_integral_nonneg. apply fdiv_nonneg.
  - now apply pos_finite_nonneg.
  - apply of_Z_nonneg. cbn [dispatch w_steps].
    apply (steps_per_thread_range num_steps num_threads Hs Ht H2).
Qed.

Lemma fold_left_fadd_nonneg (l : list double) (acc : double) :
  nonneg acc = true -> Forall (fun p => nonneg p = true) l ->
  nonneg (fold_left fadd l acc) = true.
Proof.
  intros Hacc Hl. revert acc Hacc.
  induction Hl as [|p l Hp _ IH]; intros acc Hacc; [assumption|].
  cbn [fold_left]. apply IH. now apply fadd_nonneg.
Qed.

Lemma accumulate_in_order_nonneg (num_steps num_threads : Z) (order : list Z) :
  in_ull num_steps -> in_int num_threads -> 1 <= num_threads ->
  Permutation order (indices num_threads) ->
  nonneg (accumulate_in_order (T:=double) num_steps num_threads order) = true.
Proof.
  intros Hs Ht H2 Hperm. rewrite accumulate_in_order_map.
  apply fold_left_fadd_nonneg; [reflexivity|].
  apply Forall_forall. intros p Hp. apply in_map_iff in Hp.
  destruct Hp as (j & <- & Hj).
  apply partial_result_nonneg; try assumption.
  apply indices_In. eapply Permutation_in; eassumption.
Qed.

(** X6: on accepted input the value printed is never negative: in every
    run it has its sign bit clear or is NaN, so it does not compare below
    0.0, and the same holds of every partial result added to the
    accumulator. *)
Theorem printed_pi_is_not_negative (num_steps num_threads : Z) :
  in_ull num_steps -> in_int num_threads ->
  1 <= num_steps -> 1 <= num_threads ->
  forall tr, run num_steps num_threads tr ->
    Forall (fun p => nonneg p = true /\ ltb p zero = false) (accumulated tr) /\
    exists v, printed_pi tr = Some v /\ nonneg v = true /\ ltb v zero = false.
Proof.
  intros Hs Ht H1 H2 tr Hrun.
  destruct (main_run_valid _ _ tr (valid_input _ _ H1 H2) Hrun)
    as (order & Hperm & Hpi & _ & Ha & _).
  split.
  - rewrite Ha. apply Forall_forall. intros p Hp. apply in_map_iff in Hp.
    destruct Hp as (j & <- & Hj).
    assert (Hnn : nonneg (partial_result (dispatch (T:=double) num_steps num_threads j)) = true).
    { apply partial_result_nonneg; try assumption.
      apply indices_In. eapply Permutation_in; eassumption. }
    split; [assumption | now apply nonneg_not_below_zero].
  - exists (accumulate_in_order num_steps num_threads order).
    assert (Hnn := accumulate_in_order_nonneg num_steps num_threads order Hs Ht H2 Hperm).
    split; [assumption|]. split; [assumption | now apply nonneg_not_below_zero].
Qed.

Lemma printed_pi_is_not_negative_witness :
  (exists tr, run 3 5 tr) /\
  forall tr, run 3 5 tr ->
    Forall (fun p => nonneg p = true /\ ltb p zero = false) (accumulated tr) /\
    exists v, printed_pi tr = Some v /\ nonneg v = true /\ ltb v zero = false.
Proof.
  split; [apply main_run_exists|].
  apply (printed_pi_is_not_negative 3 5);
    unfold in_ull, in_int, ULLONG_MOD, INT_MIN, INT_MAX; lia.
Defined.

(** ** Two threads *)

Lemma fadd_comm (x y : double) : fadd x y = fadd y x.
Proof.
  unfold fadd, SFadd.
  destruct x as [[|]|[|]| |sx mx ex], y as [[|]|[|]| |sy my ey]; try reflexivity.
  rewrite (Z.min_comm ey ex). f_equal. apply Z.add_comm.
Qed.

(** X8: with two threads the value printed does not depend on the order
    in which the threads take the lock: every run on the same accepted
    num_steps prints the same double, the sum of the two partial
    results. *)
Theorem two_threads_print_one_value (num_steps : Z) :
  in_ull num_steps -> 1 <= num_steps ->
  forall tr1 tr2, run num_steps 2 tr1 -> run num_steps 2 tr2 ->
    printed_pi tr1 = printed_pi tr2 /\
    printed_pi tr1 =
      Some (fadd (cpi zero (fmul (of_Z 1) (fdiv one (of_Z 2))) (num_steps / 2))
                 (cpi (fmul (of_Z 1) (fdiv one (of_Z 2)))
                      (fmul (of_Z 2) (fdiv one (of_Z 2))) (num_steps / 2))).
Proof.
  intros Hs H1.
  assert (Ht : in_int 2) by (unfold in_int, INT_MIN, INT_MAX; lia).
  assert (Hv := valid_input num_steps 2 H1 ltac:(lia)).
  set (p0 := partial_result (dispatch (T:=double) num_steps 2 0)).
  set (p1 := partial_result (dispatch (T:=double) num_steps 2 1)).
  assert (Hp0 : nonneg p0 = true) by (apply partial_result_nonneg; try assumption; lia).
  assert (Hall : forall tr, run num_steps 2 tr -> printed_pi tr = Some (fadd p0 p1)).
  { intros tr Hrun.
    destruct (main_run_valid _ _ tr Hv Hrun) as (order & Hperm & Hpi & _).
    rewrite Hpi. f_equal. rewrite accumulate_in_order_map.
    change (indices 2) with [0; 1] in Hperm.
    apply Permutation_sym, Permutation_length_2_inv in Hperm.
    assert (Hp1 : nonneg p1 = true) by (apply partial_result_nonneg; try assumption; lia).
    destruct Hperm as [-> | ->]; cbn [map fold_left]; fold p0; fold p1.
    - now rewrite fadd_zero_l.
    - rewrite fadd_zero_l by assumption. apply fadd_comm. }
  intros tr1 tr2 Hr1 Hr2. rewrite (Hall tr1 Hr1), (Hall tr2 Hr2).
  split; [reflexivity|]. unfold p0, p1.
  rewrite !partial_result_dispatch by (assumption || lia). reflexivity.
Qed.

Lemma two_threads_print_one_value_witness :
  (exists tr, run 4 2 tr) /\
  forall tr1 tr2, run 4 2 tr1 -> run 4 2 tr2 ->
    printed_pi tr1 = printed_pi tr2 /\
    printed_pi tr1 =
      Some (fadd (cpi zero (fmul (of_Z 1) (fdiv one (of_Z 2))) (4 / 2))
                 (cpi (fmul (of_Z 1) (fdiv one (of_Z 2)))
                      (fmul (of_Z 2) (fdiv one (of_Z 2))) (4 / 2))).
Proof.
  split; [apply main_run_exists|].
  apply (two_threads_print_one_value 4);
    unfold in_ull, ULLONG_MOD; lia.
Defined.

End ProgramFacts.

(* ================================================================== *)
(** * Further properties of the intervals *)

Section IntervalFacts.

Import F64 F64Facts F64Rounding.

Local Abbreviation run := (main_run (T:=double)).

(** [binary_round] in the normal range, with the exponent it returns. *)
Lemma binary_round_normal_exponent (sx : bool) (p : positive) (e : Z) :
  -1074 <= Zdigits2 (Z.pos p) + e - 53 -> Zdigits2 (Z.pos p) + e <= 1023 ->
  exists m3 e3,
    binary_round prec emax sx p e = S754_finite sx m3 e3 /\
    2 ^ 52 <= Z.pos m3 < 2 ^ 53 /\
    Zdigits2 (Z.pos p) + e - 53 <= e3 <= Zdigits2 (Z.pos p) + e - 52.
Proof.
  intros Hlo Hhi. unfold binary_round.
  change (Z.pos (digits2_pos p)) with (Zdigits2 (Z.pos p)).
  assert (Hf : fexp prec emax (Zdigits2 (Z.pos p) + e) = Zdigits2 (Z.pos p) + e - 53).
  { unfold fexp, emin, prec, emax. lia. }
  rewrite Hf.
  destruct (Z_le_gt_dec (Zdigits2 (Z.pos p)) 53) as [Hd | Hd].
  - destruct (shl_align_le p e (Zdigits2 (Z.pos p) + e - 53)) as (p' & E & Hp'); [lia|].
    rewrite E.
    assert (Hd' : Zdigits2 (Z.pos p') = 53).
    { rewrite Hp', Zdigits2_mul_pow2 by lia. lia. }
    rewrite binary_round_aux_exact by (assumption || lia).
    exists p', (Zdigits2 (Z.pos p) + e - 53). split; [reflexivity|].
    assert (Hb := Zdigits2_bounds (Z.pos p') ltac:(lia)).
    rewrite Hd' in Hb. split; [exact Hb | lia].
  - rewrite shl_align_gt by lia.
    destruct (binary_round_aux_normal sx (Z.pos p) e loc_Exact)
      as (m3 & e3 & E & Hb & He & _); try lia.
    exists m3, e3. split; [assumption|]. split; [assumption | lia].
Qed.

(** Every positive [unsigned long long] converts to a normal double
    between 1 and 2^64. *)
Lemma of_Z_normal (n : Z) :
  1 <= n < 2 ^ 64 ->
  exists m e,
    of_Z n = S754_finite false m e /\
    2 ^ 52 <= Z.pos m < 2 ^ 53 /\ -52 <= e <= 12.
Proof.
  intros Hn. destruct n as [|p|p]; try lia.
  assert (Hd : 1 <= Zdigits2 (Z.pos p) <= 64).
  { split; [apply (Zdigits2_ge (Z.pos p) 0); lia | apply Zdigits2_le; lia]. }
  destruct (binary_round_normal_exponent false p 0) as (m & e & E & Hb & He);
    try lia.
  exists m, e. split; [exact E|]. split; [assumption | lia].
Qed.

(** The difference of two positive doubles in value order is a normal
    positive double. *)
Lemma SFsub_pos_normal (m1 m2 : positive) (e1 e2 c : Z) :
  Z.pos m1 < 2 ^ 53 ->
  -900 <= c -> c <= e1 <= 900 -> c <= e2 <= 900 ->
  Z.pos m2 * 2 ^ (e2 - c) < Z.pos m1 * 2 ^ (e1 - c) ->
  exists m3 e3,
    SFsub prec emax (S754_finite false m1 e1) (S754_finite false m2 e2) =
      S754_finite false m3 e3 /\
    2 ^ 52 <= Z.pos m3 < 2 ^ 53 /\ c - 52 <= e3 <= e1 + 1.
Proof.
  intros Hm1 Hc He1 He2 Hlt. cbn [SFsub cond_Zopp].
  set (ez := Z.min e1 e2).
  destruct (shl_align_le m1 e1 ez) as (p1 & E1 & Hp1); [unfold ez; lia|].
  destruct (shl_align_le m2 e2 ez) as (p2 & E2 & Hp2); [unfold ez; lia|].
  rewrite E1, E2. cbn [fst].
  assert (Hz : 0 <= ez - c) by (unfold ez; lia).
  assert (Hpz := pow2_pos (ez - c) Hz).
  assert (Hs1 : Z.pos p1 * 2 ^ (ez - c) = Z.pos m1 * 2 ^ (e1 - c)).
  { rewrite Hp1, <- Z.mul_assoc, <- Z.pow_add_r by (unfold ez; lia).
    do 2 f_equal. lia. }
  assert (Hs2 : Z.pos p2 * 2 ^ (ez - c) = Z.pos m2 * 2 ^ (e2 - c)).
  { rewrite Hp2, <- Z.mul_assoc, <- Z.pow_add_r by (unfold ez; lia).
    do 2 f_equal. lia. }
  assert (HD : 0 < Z.pos p1 - Z.pos p2) by nia.
  destruct (Z.pos p1 - Z.pos p2) as [|pD|pD] eqn:ED; try lia.
  cbn [binary_normalize].
  assert (Hup : Z.pos pD < 2 ^ (53 + (e1 - ez))).
  { rewrite Z.pow_add_r by (unfold ez; lia).
    assert (0 < 2 ^ (e1 - ez)) by (apply pow2_pos; unfold ez; lia). nia. }
  assert (Hdig : 1 <= Zdigits2 (Z.pos pD) <= 53 + (e1 - ez)).
  { split; [apply (Zdigits2_ge (Z.pos pD) 0); lia |
            apply Zdigits2_le; [lia | assumption]]. }
  destruct (binary_round_normal_exponent false pD ez) as (m3 & e3 & E & Hb & He);
    try (unfold ez in *; lia).
  exists m3, e3. split; [exact E|]. split; [assumption|]. unfold ez in *. lia.
Qed.

(** Normal positive doubles compare as their values do. *)
Lemma SFltb_normal (m1 m2 : positive) (e1 e2 c : Z) :
  2 ^ 52 <= Z.pos m1 < 2 ^ 53 -> 2 ^ 52 <= Z.pos m2 < 2 ^ 53 ->
  c <= e1 -> c <= e2 ->
  Z.pos m1 * 2 ^ (e1 - c) < Z.pos m2 * 2 ^ (e2 - c) ->
  ltb (S754_finite false m1 e1) (S754_finite false m2 e2) = true.
Proof.
  intros Hm1 Hm2 He1 He2 Hlt. unfold ltb, SFltb. cbn [SFcompare].
  destruct (Z.compare_spec e1 e2) as [Heq | Hlo | Hhi].
  - subst e2. assert (Hp := pow2_pos (e1 - c) ltac:(lia)).
    assert (Hm : (m1 < m2)%positive) by nia.
    change (Pos.compare_cont Eq m1 m2) with (Pos.compare m1 m2).
    now rewrite (proj2 (Pos.compare_lt_iff m1 m2) Hm).
  - reflexivity.
  - exfalso.
    assert (Hp := pow2_pos (e2 - c) ltac:(lia)).
    assert (E : 2 ^ (e1 - c) = 2 ^ (e1 - e2) * 2 ^ (e2 - c)).
    { rewrite <- Z.pow_add_r by lia. f_equal. lia. }
    assert (H2 : 2 ^ 1 <= 2 ^ (e1 - e2)) by (apply Z.pow_le_mono_r; lia).
    change (2 ^ 1) with 2 in H2. rewrite E in Hlt. nia.
Qed.

(** The bounds of thread i: the start is +0.0 for thread 0 and a normal
    positive double otherwise, the end is a normal positive double above
    the start, and their difference is a normal positive double. *)
Lemma thread_interval_normal (num_steps num_threads i : Z) :
  1 <= num_threads < 2 ^ 31 -> 0 <= i < num_threads ->
  let w := dispatch (T:=double) num_steps num_threads i in
  (w_start w = zero \/ pos_finite (w_start w) = true) /\
  pos_finite (w_end w) = true /\
  ltb (w_start w) (w_end w) = true /\
  exists md ed,
    fsub (w_end w) (w_start w) = S754_finite false md ed /\
    2 ^ 52 <= Z.pos md < 2 ^ 53 /\ -187 <= ed <= -18.
Proof.
  intros Hn Hi. cbn zeta. cbn [dispatch w_start w_end].
  cbn [of_int mul F64_Arith].
  destruct (range_per_thread_normal num_threads Hn) as (mr & er & Er & Hmr & Her).
  rewrite Er.
  destruct (thread_bound_normal (i + 1) mr er ltac:(lia) Hmr Her)
    as (m1 & e1 & E1 & Hb1 & He1 & Hv1).
  rewrite E1.
  destruct (Z.eq_dec i 0) as [-> | Hnz].
  - change (fmul (of_Z 0) (S754_finite false mr er)) with zero.
    split; [now left|]. split; [reflexivity|]. split; [reflexivity|].
    exists m1, e1. split; [reflexivity|]. split; [assumption | lia].
  - destruct (thread_bound_normal i mr er ltac:(lia) Hmr Her)
      as (m2 & e2 & E2 & Hb2 & He2 & Hv2).
    rewrite E2.
    assert (Hval : Z.pos m2 * 2 ^ (e2 - (er - 52)) < Z.pos m1 * 2 ^ (e1 - (er - 52))).
    { replace (e2 - (er - 52)) with (e2 - er + 52) by lia.
      replace (e1 - (er - 52)) with (e1 - er + 52) by lia. nia. }
    split; [now right|]. split; [reflexivity|]. split.
    + apply (SFltb_normal m2 m1 e2 e1 (er - 52)); try assumption; lia.
    + unfold fsub.
      destruct (SFsub_pos_normal m1 m2 e1 e2 (er - 52)) as (m3 & e3 & E3 & Hb3 & He3);
        try lia.
      exists m3, e3. split; [exact E3|]. split; [assumption | lia].
Qed.

(** X4: on accepted input every thread is launched on an interval whose
    start is +0.0 or a positive finite double and whose end is a positive
    finite double strictly above the start: for every thread count the
    kernel is called with start < end, and never with a NaN, an infinity
    or a negative bound. *)
Theorem thread_bounds_are_ordered (num_steps num_threads : Z) :
  in_ull num_steps -> in_int num_threads ->
  1 <= num_steps -> 1 <= num_threads ->
  forall tr, run num_steps num_threads tr ->
    Forall (fun w =>
              (w_start w = zero \/ pos_finite (w_start w) = true) /\
              pos_finite (w_end w) = true /\
              ltb (w_start w) (w_end w) = true)
           (launched tr).
Proof.
  intros Hs Ht H1 H2 tr Hrun.
  destruct (main_run_valid _ _ tr (valid_input _ _ H1 H2) Hrun)
    as (order & _ & _ & Hl & _).
  assert (Hn31 : 1 <= num_threads < 2 ^ 31)
    by (unfold in_int, INT_MAX in Ht; lia).
  rewrite Hl. apply Forall_forall. intros w Hw.
  apply in_map_iff in Hw. destruct Hw as (j & <- & Hj).
  apply indices_In in Hj.
  destruct (thread_interval_normal num_steps num_threads j Hn31 Hj)
    as (Ha & Hb & Hc & _).
  auto.
Qed.

Lemma thread_bounds_are_ordered_witness :
  (exists tr, run 7 3 tr) /\
  forall tr, run 7 3 tr ->
    Forall (fun w =>
              (w_start w = zero \/ pos_finite (w_start w) = true) /\
              pos_finite (w_end w) = true /\
              ltb (w_start w) (w_end w) = true)
           (launched tr).
Proof.
  split; [apply main_run_exists|].
  apply (thread_bounds_are_ordered 7 3);
    unfold in_ull, in_int, ULLONG_MOD, INT_MIN, INT_MAX; lia.
Defined.

(** X5: when num_threads <= num_steps every thread is launched with at
    least one step, and the step size it computes, (end - start) / steps,
    is a positive finite double: the kernel divides by a nonzero number
    and its step size is neither 0.0, an infinity nor NaN. *)
Theorem step_size_is_positive_finite (num_steps num_threads : Z) :
  in_ull num_steps -> in_int num_threads ->
  1 <= num_threads -> num_threads <= num_steps ->
  forall tr, run num_steps num_threads tr ->
    Forall (fun w =>
              1 <= w_steps w /\
              pos_finite (fdiv (fsub (w_end w) (w_start w)) (of_Z (w_steps w)))
                = true)
           (launched tr).
Proof.
  intros Hs Ht H2 Hle tr Hrun.
  assert (H1 : 1 <= num_steps) by lia.
  destruct (main_run_valid _ _ tr (valid_input _ _ H1 H2) Hrun)
    as (order & _ & _ & Hl & _).
  assert (Hn31 : 1 <= num_threads < 2 ^ 31)
    by (unfold in_int, INT_MAX in Ht; lia).
  assert (Hspt : 1 <= steps_per_thread num_steps num_threads < 2 ^ 64).
  { assert (Hr := steps_per_thread_range num_steps num_threads Hs Ht H2).
    unfold in_ull, ULLONG_MOD in Hr. split; [|lia].
    rewrite steps_per_thread_div by assumption.
    apply Z.div_le_lower_bound; lia. }
  rewrite Hl. apply Forall_forall. intros w Hw.
  apply in_map_iff in Hw. destruct Hw as (j & <- & Hj).
  apply indices_In in Hj.
  destruct (thread_interval_normal num_steps num_threads j Hn31 Hj)
    as (_ & _ & _ & md & ed & Ed & Hmd & Hed).
  cbn zeta in Ed. rewrite Ed. cbn [dispatch w_steps].
  split; [lia|].
  destruct (of_Z_normal _ Hspt) as (ms & es & Es & Hms & Hes).
  rewrite Es. unfold fdiv.
  destruct (SFdiv_normal md ms ed es) as (m3 & e3 & E3 & _); try lia.
  now rewrite E3.
Qed.

Lemma step_size_is_positive_finite_witness :
  (exists tr, run 7 3 tr) /\
  forall tr, run 7 3 tr ->
    Forall (fun w =>
              1 <= w_steps w /\
              pos_finite (fdiv (fsub (w_end w) (w_start w)) (of_Z (w_steps w)))
                = true)
           (launched tr).
Proof.
  split; [apply main_run_exists|].
  apply (step_size_is_positive_finite 7 3);
    unfold in_ull, in_int, ULLONG_MOD, INT_MIN, INT_MAX; lia.
Defined.

End IntervalFacts.

(* ================================================================== *)
(** * Rounding errors of the kernel

    Every operation of [calculate_partial_integral] on normal numbers
    returns the exact result times a factor between 1 - 2^-52 and
    1 + 2^-52.  Followed through the kernel, this bounds the binary64
    result in terms of the exact width of the interval. *)

Section RoundingErrors.

Import F64 F64Facts F64Rounding.

Local Abbreviation cpi := (calculate_partial_integral (T:=double)).

(** ** Powers of two *)

Lemma pow2_add (a b : Z) : pow2 (a + b) = (pow2 a * pow2 b)%R.
Proof. unfold pow2. apply powerRZ_add. lra. Qed.

Lemma pow2_gt0 (e : Z) : (0 < pow2 e)%R.
Proof. unfold pow2. apply powerRZ_lt. lra. Qed.

Lemma pow2_IZR (k : Z) : 0 <= k -> pow2 k = IZR (2 ^ k).
Proof.
  intros Hk. unfold pow2.
  rewrite <- (Z2Nat.id k Hk) at 1. rewrite <- pow_powerRZ.
  rewrite pow_IZR. now rewrite Z2Nat.id.
Qed.

Lemma pow2_0 : pow2 0 = 1%R.
Proof. reflexivity. Qed.

Lemma pow2_le (a b : Z) : a <= b -> (pow2 a <= pow2 b)%R.
Proof.
  intros Hab. replace b with (a + (b - a)) by lia.
  rewrite pow2_add, (pow2_IZR (b - a)) by lia.
  assert (H1 : (1 <= IZR (2 ^ (b - a)))%R).
  { apply IZR_le. assert (0 < 2 ^ (b - a)) by (apply pow2_pos; lia). lia. }
  assert (H0 := pow2_gt0 a). nra.
Qed.

Lemma pow2_lt (a b : Z) : a < b -> (pow2 a < pow2 b)%R.
Proof.
  intros Hab. replace b with (a + (b - a)) by lia.
  rewrite pow2_add, (pow2_IZR (b - a)) by lia.
  assert (H1 : (2 <= IZR (2 ^ (b - a)))%R).
  { apply IZR_le. change 2 with (2 ^ 1) at 1. apply Z.pow_le_mono_r; lia. }
  assert (H0 := pow2_gt0 a). nra.
Qed.

Lemma pow2_lt_inv (a b : Z) : (pow2 a < pow2 b)%R -> a < b.
Proof.
  intros H. destruct (Z_lt_le_dec a b) as [Hlt | Hge]; [assumption|].
  apply pow2_le in Hge. lra.
Qed.

Lemma pow2_le_inv (a b : Z) : (pow2 a <= pow2 b)%R -> a <= b.
Proof.
  intros H. destruct (Z_le_gt_dec a b) as [Hle | Hgt]; [assumption|].
  assert (Hlt : b < a) by lia. apply pow2_lt in Hlt. lra.
Qed.

Lemma epsilon_bounds : (0 < epsilon <= / 4)%R.
Proof.
  unfold epsilon. split; [apply pow2_gt0|].
  replace (/ 4)%R with (pow2 (-2)).
  - apply pow2_le. lia.
  - unfold pow2. simpl. lra.
Qed.

Lemma epsilon_pow2 (k : Z) : (pow2 k = epsilon * pow2 (52 + k))%R.
Proof. unfold epsilon. rewrite <- pow2_add. f_equal. lia. Qed.

Lemma digits_R (m : Z) :
  0 < m -> (pow2 (Zdigits2 m - 1) <= IZR m < pow2 (Zdigits2 m))%R.
Proof.
  intros Hm. assert (Hb := Zdigits2_bounds m Hm).
  assert (Hd : 1 <= Zdigits2 m) by (apply (Zdigits2_ge m 0); lia).
  rewrite !pow2_IZR by lia. split; [apply IZR_le | apply IZR_lt]; lia.
Qed.

(** Rounding a mantissa of at least 53 bits, standing for a real value
    between m and m + 1 units: relative error at most epsilon. *)
Lemma round_aux_R (sx : bool) (m e : Z) (l : location) (v : R) :
  0 < m -> 53 <= Zdigits2 m ->
  -1074 <= Zdigits2 m + e - 53 -> Zdigits2 m + e <= 1023 ->
  (IZR m <= v < IZR m + 1)%R ->
  exists m3 e3,
    binary_round_aux prec emax sx m e l = S754_finite sx m3 e3 /\
    2 ^ 52 <= Z.pos m3 < 2 ^ 53 /\
    e + (Zdigits2 m - 53) <= e3 <= e + (Zdigits2 m - 53) + 1 /\
    (v * pow2 e * (1 - epsilon) <= IZR (Z.pos m3) * pow2 e3
       <= v * pow2 e * (1 + epsilon))%R.
Proof.
  intros Hm Hd Hlo Hhi Hv.
  destruct (binary_round_aux_normal sx m e l Hm Hd Hlo Hhi)
    as (m3 & e3 & E & Hb & He & HA).
  exists m3, e3. split; [exact E|]. split; [exact Hb|]. split; [exact He|].
  set (k := Zdigits2 m - 53) in *.
  assert (Hk : 0 <= k) by (unfold k; lia).
  assert (Hpk := pow2_pos k Hk).
  set (A := Z.pos m3 * 2 ^ (e3 - e)) in *.
  assert (HA' : m + 1 - 2 ^ k <= A <= m + 2 ^ k).
  { assert (Hdm := Z.div_mod m (2 ^ k) ltac:(lia)).
    assert (Hr := Z.mod_pos_bound m (2 ^ k) Hpk). nia. }
  assert (Hm52 : 2 ^ 52 * 2 ^ k <= m).
  { assert (Hbm := Zdigits2_bounds m Hm).
    rewrite <- Z.pow_add_r by lia.
    replace (52 + k) with (Zdigits2 m - 1) by (unfold k; lia). lia. }
  assert (EA : (IZR (Z.pos m3) * pow2 e3 = IZR A * pow2 e)%R).
  { unfold A. rewrite mult_IZR, <- pow2_IZR by lia.
    rewrite Rmult_assoc, <- pow2_add. do 2 f_equal. lia. }
  rewrite EA.
  assert (Hpe := pow2_gt0 e).
  assert (HkR : (IZR (2 ^ k) <= epsilon * IZR m)%R).
  { rewrite <- pow2_IZR by lia. rewrite (epsilon_pow2 k).
    assert (He0 := epsilon_bounds).
    apply Rmult_le_compat_l; [lra|].
    rewrite pow2_IZR by lia. apply IZR_le.
    rewrite Z.pow_add_r by lia. lia. }
  assert (HA1 : (IZR m + 1 - IZR (2 ^ k) <= IZR A)%R).
  { rewrite <- plus_IZR, <- minus_IZR. apply IZR_le. lia. }
  assert (HA2 : (IZR A <= IZR m + IZR (2 ^ k))%R).
  { rewrite <- plus_IZR. apply IZR_le. lia. }
  assert (He0 := epsilon_bounds).
  assert (Hm0 : (0 < IZR m)%R) by (apply IZR_lt; lia).
  assert (Hl : (v * (1 - epsilon) <= IZR A)%R) by nra.
  assert (Hu : (IZR A <= v * (1 + epsilon))%R) by nra.
  split; nra.
Qed.

(** [binary_round] in the normal range: relative error at most epsilon. *)
Lemma binary_round_R (sx : bool) (p : positive) (e : Z) :
  -1074 <= Zdigits2 (Z.pos p) + e - 53 -> Zdigits2 (Z.pos p) + e <= 1023 ->
  exists m3 e3,
    binary_round prec emax sx p e = S754_finite sx m3 e3 /\
    2 ^ 52 <= Z.pos m3 < 2 ^ 53 /\
    Zdigits2 (Z.pos p) + e - 53 <= e3 <= Zdigits2 (Z.pos p) + e - 52 /\
    (IZR (Z.pos p) * pow2 e * (1 - epsilon) <= IZR (Z.pos m3) * pow2 e3
       <= IZR (Z.pos p) * pow2 e * (1 + epsilon))%R.
Proof.
  intros Hlo Hhi. unfold binary_round.
  change (Z.pos (digits2_pos p)) with (Zdigits2 (Z.pos p)).
  assert (Hf : fexp prec emax (Zdigits2 (Z.pos p) + e) = Zdigits2 (Z.pos p) + e - 53).
  { unfold fexp, emin, prec, emax. lia. }
  rewrite Hf.
  assert (He0 := epsilon_bounds). assert (Hpe := pow2_gt0 e).
  assert (Hp0 : (0 < IZR (Z.pos p))%R) by (apply IZR_lt; lia).
  destruct (Z_le_gt_dec (Zdigits2 (Z.pos p)) 53) as [Hd | Hd].
  - destruct (shl_align_le p e (Zdigits2 (Z.pos p) + e - 53)) as (p' & E & Hp'); [lia|].
    rewrite E.
    assert (Hd' : Zdigits2 (Z.pos p') = 53).
    { rewrite Hp', Zdigits2_mul_pow2 by lia. lia. }
    rewrite binary_round_aux_exact by (assumption || lia).
    exists p', (Zdigits2 (Z.pos p) + e - 53). split; [reflexivity|].
    assert (Hb := Zdigits2_bounds (Z.pos p') ltac:(lia)).
    rewrite Hd' in Hb. split; [exact Hb|]. split; [lia|].
    assert (EV : (IZR (Z.pos p') * pow2 (Zdigits2 (Z.pos p) + e - 53) =
                  IZR (Z.pos p) * pow2 e)%R).
    { rewrite Hp', mult_IZR, <- pow2_IZR by lia.
      rewrite Rmult_assoc, <- pow2_add. do 2 f_equal. lia. }
    rewrite EV.
    assert (HV : (0 < IZR (Z.pos p) * pow2 e)%R) by (apply Rmult_lt_0_compat; lra).
    split; nra.
  - rewrite shl_align_gt by lia.
    destruct (round_aux_R sx (Z.pos p) e loc_Exact (IZR (Z.pos p)))
      as (m3 & e3 & E & Hb & He & Hv); try lia; [lra|].
    exists m3, e3. split; [assumption|]. split; [assumption|]. split; [lia | exact Hv].
Qed.




Lemma pow2_neg (a : Z) : pow2 (- a) = (/ pow2 a)%R.
Proof. unfold pow2. apply powerRZ_neg'. Qed.

Lemma npos_value (a b : Z) (x : double) :
  npos a b x ->
  exists e, a <= e <= b /\ (pow2 (52 + e) <= to_R x < pow2 (53 + e))%R.
Proof.
  intros (m & e & -> & Hm & He). exists e. split; [assumption|].
  cbn [to_R]. rewrite !pow2_add, (pow2_IZR 52), (pow2_IZR 53) by lia.
  assert (Hpe := pow2_gt0 e).
  assert (H1 : (IZR (2 ^ 52) <= IZR (Z.pos m))%R) by (apply IZR_le; lia).
  assert (H2 : (IZR (Z.pos m) < IZR (2 ^ 53))%R) by (apply IZR_lt; lia).
  split; nra.
Qed.

Lemma npos_pos (a b : Z) (x : double) : npos a b x -> (0 < to_R x)%R.
Proof.
  intros H. destruct (npos_value _ _ _ H) as (e & _ & H1 & _).
  assert (H0 := pow2_gt0 (52 + e)). lra.
Qed.

Lemma npos_weaken (a b a' b' : Z) (x : double) :
  npos a b x -> a' <= a -> b <= b' -> npos a' b' x.
Proof.
  intros (m & e & E & Hm & He) H1 H2. exists m, e. repeat split; try assumption; lia.
Qed.

Lemma npos_wpos (a b : Z) (x : double) :
  npos a b x -> -1074 <= a -> wpos b x.
Proof.
  intros (m & e & E & Hm & He) H1. right. exists m, e.
  repeat split; try assumption; lia.
Qed.

Lemma wpos_nonneg (b : Z) (x : double) : wpos b x -> (0 <= to_R x)%R.
Proof.
  intros [[s ->] | (m & e & -> & Hm & He)]; cbn [to_R]; [lra|].
  assert (Hpe := pow2_gt0 e).
  assert (H1 : (0 < IZR (Z.pos m))%R) by (apply IZR_lt; lia). nra.
Qed.

(** The exponent of a normal number from a bound on its value. *)
Lemma npos_below (a b B : Z) (x : double) :
  npos a b x -> (to_R x <= pow2 B)%R -> npos a (B - 52) x.
Proof.
  intros (m & e & -> & Hm & He) Hv. exists m, e.
  split; [reflexivity|]. split; [assumption|]. split; [lia|].
  cbn [to_R] in Hv.
  assert (Hpe := pow2_gt0 e).
  assert (H1 : (IZR (2 ^ 52) <= IZR (Z.pos m))%R) by (apply IZR_le; lia).
  assert (H2 : (pow2 (52 + e) <= pow2 B)%R).
  { rewrite pow2_add, pow2_IZR by lia. nra. }
  apply pow2_le_inv in H2. lia.
Qed.

(** ** The four operations on normal numbers *)

Lemma fmul_R (a b c d : Z) (x y : double) :
  npos a b x -> npos c d y -> -1100 <= a + c -> b + d <= 900 ->
  npos (a + c + 52) (b + d + 54) (fmul x y) /\
  rounded (to_R x * to_R y) (to_R (fmul x y)).
Proof.
  intros (mx & ex & -> & Hx & Hex) (my & ey & -> & Hy & Hey) Hlo Hhi.
  unfold fmul. cbn [SFmul xorb]. rewrite Pos2Z.inj_mul.
  set (P := Z.pos mx * Z.pos my).
  assert (HP : 2 ^ 104 <= P < 2 ^ 106) by (unfold P; nia).
  assert (Hd : 105 <= Zdigits2 P <= 106).
  { split; [apply (Zdigits2_ge P 104); lia | apply Zdigits2_le; lia]. }
  destruct (round_aux_R false P (ex + ey) loc_Exact (IZR P))
    as (m3 & e3 & E & Hb & He3 & Hv); try lia; [lra|].
  rewrite E. split.
  - exists m3, e3. split; [reflexivity|]. split; [assumption | lia].
  - unfold rounded. cbn [to_R].
    replace (1 * IZR (Z.pos mx) * pow2 ex * (1 * IZR (Z.pos my) * pow2 ey))%R
      with (IZR P * pow2 (ex + ey))%R.
    + rewrite Rmult_1_l. exact Hv.
    + unfold P. rewrite mult_IZR, pow2_add. ring.
Qed.

Lemma fdiv_R (a b c d : Z) (x y : double) :
  npos a b x -> npos c d y -> -1021 <= a - d -> b - c <= 1000 ->
  npos (a - d - 53) (b - c - 51) (fdiv x y) /\
  rounded (to_R x / to_R y) (to_R (fdiv x y)).
Proof.
  intros (mx & ex & -> & Hx & Hex) (my & ey & -> & Hy & Hey) Hlo Hhi.
  unfold fdiv. cbn [SFdiv xorb]. unfold SFdiv_core_binary.
  rewrite (mantissa_digits mx Hx), (mantissa_digits my Hy).
  assert (Hf : Z.min (fexp prec emax (53 + ex - (53 + ey))) (ex - ey) = ex - ey - 53).
  { unfold fexp, emin, prec, emax. lia. }
  rewrite Hf.
  replace (ex - ey - (ex - ey - 53)) with 53 by lia.
  cbv zeta iota beta.
  rewrite Z.shiftl_mul_pow2 by lia.
  assert (Hdm := Z_div_mod (Z.pos mx * 2 ^ 53) (Z.pos my) ltac:(lia)).
  destruct (Z.div_eucl (Z.pos mx * 2 ^ 53) (Z.pos my)) as [q r].
  destruct Hdm as [Hq Hr].
  assert (Hqb : 2 ^ 52 <= q < 2 ^ 54) by nia.
  assert (Hdq : 53 <= Zdigits2 q <= 54).
  { split; [apply (Zdigits2_ge q 52); lia | apply Zdigits2_le; lia]. }
  set (v := (IZR (Z.pos mx) * IZR (2 ^ 53) / IZR (Z.pos my))%R).
  assert (Hmy : (0 < IZR (Z.pos my))%R) by (apply IZR_lt; lia).
  assert (Hqv : (IZR q <= v < IZR q + 1)%R).
  { assert (E : (IZR (Z.pos mx) * IZR (2 ^ 53) = IZR (Z.pos my) * IZR q + IZR r)%R).
    { rewrite <- !mult_IZR, <- plus_IZR. f_equal. exact Hq. }
    assert (Hr0 : (0 <= IZR r)%R) by (apply IZR_le; lia).
    assert (Hr1 : (IZR r < IZR (Z.pos my))%R) by (apply IZR_lt; lia).
    unfold v. rewrite E. split.
    - apply Rmult_le_reg_r with (IZR (Z.pos my)); [assumption|].
      unfold Rdiv. rewrite Rmult_assoc, Rinv_l by lra. nra.
    - apply Rmult_lt_reg_r with (IZR (Z.pos my)); [assumption|].
      unfold Rdiv. rewrite Rmult_assoc, Rinv_l by lra. nra. }
  destruct (round_aux_R false q (ex - ey - 53) (new_location (Z.pos my) r) v)
    as (m3 & e3 & E & Hb & He3 & Hv); try lia; [exact Hqv|].
  rewrite E. split.
  - exists m3, e3. split; [reflexivity|]. split; [assumption | lia].
  - unfold rounded. cbn [to_R].
    replace (1 * IZR (Z.pos mx) * pow2 ex / (1 * IZR (Z.pos my) * pow2 ey))%R
      with (v * pow2 (ex - ey - 53))%R.
    + rewrite Rmult_1_l. exact Hv.
    + unfold v.
      replace (ex - ey - 53) with (ex + (- ey + - (53))) by lia.
      rewrite !pow2_add, !pow2_neg, (pow2_IZR 53) by lia.
      assert (Hpy := pow2_gt0 ey).
      assert (H53 : (0 < IZR (2 ^ 53))%R) by (apply IZR_lt; lia).
      field. repeat split; lra.
Qed.

Lemma aligned_value (p p' : positive) (e e' : Z) :
  e' <= e -> Z.pos p' = Z.pos p * 2 ^ (e - e') ->
  (IZR (Z.pos p') * pow2 e' = IZR (Z.pos p) * pow2 e)%R.
Proof.
  intros He Hp. rewrite Hp, mult_IZR, <- pow2_IZR by lia.
  rewrite Rmult_assoc, <- pow2_add. do 2 f_equal. lia.
Qed.

Lemma rounded_refl (v : R) : (0 <= v)%R -> rounded v v.
Proof. intros Hv. assert (He := epsilon_bounds). unfold rounded. split; nra. Qed.

Lemma fadd_R (b c d : Z) (x y : double) :
  wpos b x -> npos c d y -> -1074 <= c -> b <= 900 -> d <= 900 ->
  npos c (Z.max b d + 2) (fadd x y) /\
  rounded (to_R x + to_R y) (to_R (fadd x y)).
Proof.
  intros Hx Hy Hc Hb Hd.
  assert (Hy0 := npos_pos _ _ _ Hy).
  destruct Hy as (my & ey & -> & Hy & Hey).
  destruct Hx as [[s ->] | (mx & ex & -> & Hmx & Hex)].
  - unfold fadd. cbn [SFadd]. split.
    + exists my, ey. split; [reflexivity|]. split; [assumption | lia].
    + cbn [to_R] in *. rewrite Rplus_0_l. apply rounded_refl. lra.
  - unfold fadd. cbn [SFadd cond_Zopp].
    set (ez := Z.min ex ey).
    destruct (shl_align_le mx ex ez) as (px & Ex & Hpx); [unfold ez; lia|].
    destruct (shl_align_le my ey ez) as (py & Ey & Hpy); [unfold ez; lia|].
    rewrite Ex, Ey. cbn [fst].
    change (Z.pos px + Z.pos py) with (Z.pos (px + py)).
    cbn [binary_normalize].
    set (mx' := Z.max ex ey).
    assert (Hlow : 2 ^ (52 + (ey - ez)) <= Z.pos (px + py)).
    { rewrite Z.pow_add_r by (unfold ez; lia).
      assert (0 < 2 ^ (ey - ez)) by (apply pow2_pos; unfold ez; lia). nia. }
    assert (Hup : Z.pos (px + py) < 2 ^ (54 + (mx' - ez))).
    { assert (H1 : Z.pos px < 2 ^ (53 + (mx' - ez))).
      { rewrite Hpx.
        apply Z.lt_le_trans with (2 ^ 53 * 2 ^ (ex - ez)).
        - assert (0 < 2 ^ (ex - ez)) by (apply pow2_pos; unfold ez; lia). nia.
        - rewrite <- Z.pow_add_r by (unfold ez; lia).
          apply Z.pow_le_mono_r; unfold mx', ez; lia. }
      assert (H2 : Z.pos py < 2 ^ (53 + (mx' - ez))).
      { rewrite Hpy.
        apply Z.lt_le_trans with (2 ^ 53 * 2 ^ (ey - ez)).
        - assert (0 < 2 ^ (ey - ez)) by (apply pow2_pos; unfold ez; lia). nia.
        - rewrite <- Z.pow_add_r by (unfold ez; lia).
          apply Z.pow_le_mono_r; unfold mx', ez; lia. }
      replace (54 + (mx' - ez)) with (1 + (53 + (mx' - ez))) by lia.
      rewrite (Z.pow_add_r 2 1) by (unfold mx', ez; lia).
      change (2 ^ 1) with 2. lia. }
    assert (Hdig : 53 + (ey - ez) <= Zdigits2 (Z.pos (px + py)) <= 54 + (mx' - ez)).
    { split.
      - apply (Zdigits2_ge _ (52 + (ey - ez))) in Hlow; unfold ez; lia.
      - apply Zdigits2_le; [lia | assumption]. }
    destruct (binary_round_R false (px + py) ez)
      as (m3 & e3 & E & Hb3 & He3 & Hv); try (unfold mx', ez in *; lia).
    rewrite E. split.
    + exists m3, e3. split; [reflexivity|]. split; [assumption|].
      unfold mx', ez in *. lia.
    + unfold rounded. cbn [to_R].
      replace (1 * IZR (Z.pos mx) * pow2 ex + 1 * IZR (Z.pos my) * pow2 ey)%R
        with (IZR (Z.pos (px + py)) * pow2 ez)%R.
      * rewrite Rmult_1_l. exact Hv.
      * rewrite Pos2Z.inj_add, plus_IZR, Rmult_plus_distr_r.
        rewrite (aligned_value mx px ex ez), (aligned_value my py ey ez);
          try assumption; try (unfold ez; lia). ring.
Qed.

Lemma valid_pos_finite (m : positive) (e : Z) :
  valid (S754_finite false m e) = true ->
  Z.pos m < 2 ^ 53 /\ -1074 <= e <= 971 /\
  (2 ^ 52 <= Z.pos m \/ e = -1074).
Proof.
  unfold valid, valid_binary, bounded, canonical_mantissa, fexp, emin, prec, emax.
  intros H. apply andb_true_iff in H. destruct H as [Hc Hb].
  apply Z.eqb_eq in Hc. apply Z.leb_le in Hb.
  change (Z.pos (digits2_pos m)) with (Zdigits2 (Z.pos m)) in Hc.
  assert (Hd := Zdigits2_bounds (Z.pos m) ltac:(lia)).
  assert (Hd53 : Zdigits2 (Z.pos m) <= 53) by lia.
  assert (H53 : 2 ^ Zdigits2 (Z.pos m) <= 2 ^ 53).
  { apply Z.pow_le_mono_r; lia. }
  split; [lia|]. split; [lia|].
  destruct (Z.eq_dec (Zdigits2 (Z.pos m)) 53) as [E | N].
  - left. rewrite E in Hd. change (53 - 1) with 52 in Hd. lia.
  - right. lia.
Qed.

(** The difference of two valid doubles, the second below the first,
    when it is in the normal range. *)
Lemma fsub_R (A B : Z) (x y : double) :
  valid x = true -> valid y = true ->
  pos_finite x = true ->
  (exists s, y = S754_zero s) \/ pos_finite y = true ->
  (pow2 A <= to_R x - to_R y)%R -> (to_R x <= pow2 B)%R ->
  -1022 <= A -> B <= 1000 ->
  npos (A - 52) (B - 51) (fsub x y) /\
  rounded (to_R x - to_R y) (to_R (fsub x y)).
Proof.
  intros Hvx Hvy Hx Hy HA HB HAr HBr.
  destruct x as [| | |[|] mx ex]; try discriminate Hx. clear Hx.
  destruct (valid_pos_finite mx ex Hvx) as (Hmx & Hex & Hnx).
  assert (HpA := pow2_gt0 A).
  destruct Hy as [[s ->] | Hy].
  - unfold fsub. cbn [SFsub]. cbn [to_R] in *.
    rewrite Rminus_0_r in *. rewrite Rmult_1_l in *.
    assert (Hpe := pow2_gt0 ex).
    assert (Hm1 : (IZR (Z.pos mx) < IZR (2 ^ 53))%R) by (apply IZR_lt; lia).
    assert (Hm0 : (1 <= IZR (Z.pos mx))%R) by (apply IZR_le; lia).
    assert (Hlo : A < 53 + ex).
    { apply pow2_lt_inv. rewrite pow2_add, (pow2_IZR 53) by lia. nra. }
    assert (Hn : 2 ^ 52 <= Z.pos mx).
    { destruct Hnx as [Hn | Hn]; [assumption|].
      destruct (Z_le_gt_dec (2 ^ 52) (Z.pos mx)) as [Hge | Hsmall]; [assumption|].
      exfalso. subst ex.
      assert (Hs : (IZR (Z.pos mx) < IZR (2 ^ 52))%R) by (apply IZR_lt; lia).
      assert (Hle : (pow2 (-1022) <= pow2 A)%R) by (apply pow2_le; lia).
      replace (-1022) with (52 + -1074) in Hle by lia.
      rewrite pow2_add, (pow2_IZR 52) in Hle by lia. nra. }
    assert (Hm2 : (IZR (2 ^ 52) <= IZR (Z.pos mx))%R) by (apply IZR_le; lia).
    assert (Hhi : 52 + ex <= B).
    { apply pow2_le_inv. rewrite pow2_add, (pow2_IZR 52) by lia. nra. }
    split.
    + exists mx, ex. split; [reflexivity|]. split; lia.
    + apply rounded_refl. nra.
  - destruct y as [| | |[|] my ey]; try discriminate Hy. clear Hy.
    destruct (valid_pos_finite my ey Hvy) as (Hmy & Hey & Hny).
    unfold fsub. cbn [SFsub cond_Zopp].
    set (ez := Z.min ex ey).
    destruct (shl_align_le mx ex ez) as (px & Ex & Hpx); [unfold ez; lia|].
    destruct (shl_align_le my ey ez) as (py & Ey & Hpy); [unfold ez; lia|].
    rewrite Ex, Ey. cbn [fst].
    cbn [to_R] in HA, HB.
    assert (EV : (IZR (Z.pos px - Z.pos py) * pow2 ez =
                  IZR (Z.pos mx) * pow2 ex - IZR (Z.pos my) * pow2 ey)%R).
    { rewrite minus_IZR, Rmult_minus_distr_r.
      rewrite (aligned_value mx px ex ez), (aligned_value my py ey ez);
        try assumption; try (unfold ez; lia). reflexivity. }
    assert (Hpz := pow2_gt0 ez).
    assert (Hy0 : (0 < IZR (Z.pos my) * pow2 ey)%R).
    { apply Rmult_lt_0_compat; [apply IZR_lt; lia | apply pow2_gt0]. }
    assert (HM : 0 < Z.pos px - Z.pos py).
    { apply lt_IZR.
      destruct (Rle_or_lt (IZR (Z.pos px - Z.pos py)) 0) as [Hneg | Hpos];
        [nra | assumption]. }
    destruct (Z.pos px - Z.pos py) as [|pD|pD] eqn:ED; try lia.
    cbn [binary_normalize].
    assert (Hdg := digits_R (Z.pos pD) ltac:(lia)).
    assert (Hlo : A < Zdigits2 (Z.pos pD) + ez).
    { apply pow2_lt_inv. rewrite pow2_add. nra. }
    assert (Hhi : Zdigits2 (Z.pos pD) - 1 + ez <= B).
    { apply pow2_le_inv. rewrite pow2_add. nra. }
    destruct (binary_round_R false pD ez) as (m3 & e3 & E & Hb3 & He3 & Hv);
      try lia.
    rewrite E. split.
    + exists m3, e3. split; [reflexivity|]. split; [assumption | lia].
    + unfold rounded. cbn [to_R].
      replace (1 * IZR (Z.pos mx) * pow2 ex - 1 * IZR (Z.pos my) * pow2 ey)%R
        with (IZR (Z.pos pD) * pow2 ez)%R by (rewrite EV; ring).
      rewrite Rmult_1_l. exact Hv.
Qed.

Lemma of_Z_R (n : Z) :
  1 <= n < 2 ^ 53 -> npos (-52) 0 (of_Z n) /\ to_R (of_Z n) = IZR n.
Proof.
  intros Hn. destruct (binary_normalize_exact n Hn) as (p & E & Hp & Hb).
  assert (Hd : 1 <= Zdigits2 n <= 53).
  { split; [apply (Zdigits2_ge n 0); lia | apply Zdigits2_le; lia]. }
  unfold of_Z. rewrite E. split.
  - exists p, (Zdigits2 n - 53). split; [reflexivity|]. split; [assumption | lia].
  - cbn [to_R]. rewrite Rmult_1_l, Hp, mult_IZR, <- pow2_IZR by lia.
    rewrite Rmult_assoc, <- pow2_add.
    replace (53 - Zdigits2 n + (Zdigits2 n - 53)) with 0 by lia.
    rewrite pow2_0. ring.
Qed.


(** ** Accumulated relative errors *)

Lemma shrink_S (k : nat) : shrink (S k) = ((1 - epsilon) * shrink k)%R.
Proof. reflexivity. Qed.

Lemma grow_S (k : nat) : grow (S k) = ((1 + epsilon) * grow k)%R.
Proof. reflexivity. Qed.

Lemma shrink_bounds (k : nat) : (0 < shrink k <= 1)%R.
Proof.
  assert (He := epsilon_bounds).
  induction k as [|k IH]; [unfold shrink; simpl; lra|].
  rewrite shrink_S. split; nra.
Qed.

Lemma grow_bounds (k : nat) : (1 <= grow k)%R.
Proof.
  assert (He := epsilon_bounds).
  induction k as [|k IH]; [unfold grow; simpl; lra|].
  rewrite grow_S. nra.
Qed.

Lemma shrink_add (a b : nat) : shrink (a + b) = (shrink a * shrink b)%R.
Proof. unfold shrink. apply pow_add. Qed.

Lemma grow_add (a b : nat) : grow (a + b) = (grow a * grow b)%R.
Proof. unfold grow. apply pow_add. Qed.

Lemma shrink_mono (a b : nat) : (a <= b)%nat -> (shrink b <= shrink a)%R.
Proof.
  intros Hab. replace b with (a + (b - a))%nat by lia. rewrite shrink_add.
  assert (H1 := shrink_bounds a). assert (H2 := shrink_bounds (b - a)). nra.
Qed.

Lemma grow_mono (a b : nat) : (a <= b)%nat -> (grow a <= grow b)%R.
Proof.
  intros Hab. replace b with (a + (b - a))%nat by lia. rewrite grow_add.
  assert (H1 := grow_bounds a). assert (H2 := grow_bounds (b - a)). nra.
Qed.

Lemma shrink_grow (k : nat) : (shrink k * grow k <= 1)%R.
Proof.
  assert (He := epsilon_bounds).
  induction k as [|k IH]; [unfold shrink, grow; simpl; lra|].
  rewrite shrink_S, grow_S.
  assert (H1 := shrink_bounds k). assert (H2 := grow_bounds k).
  assert (H3 : (0 < shrink k * grow k)%R) by nra.
  replace ((1 - epsilon) * shrink k * ((1 + epsilon) * grow k))%R
    with ((1 - epsilon * epsilon) * (shrink k * grow k))%R by ring.
  nra.
Qed.

Lemma grow_linear (k : nat) :
  (2 * INR k * epsilon <= 1)%R -> (grow k <= 1 + 2 * INR k * epsilon)%R.
Proof.
  assert (He := epsilon_bounds).
  induction k as [|k IH]; intros Hk; [unfold grow; simpl; lra|].
  rewrite S_INR in *. rewrite grow_S.
  assert (Hk0 := pos_INR k).
  assert (IH' := IH ltac:(nra)).
  assert (H2 := grow_bounds k). nra.
Qed.

Lemma within_weaken (a b : nat) (v x : R) :
  (0 <= v)%R -> within a v x -> (a <= b)%nat -> within b v x.
Proof.
  intros Hv [H1 H2] Hab. unfold within.
  assert (Hl := shrink_mono a b Hab). assert (Hh := grow_mono a b Hab).
  split; nra.
Qed.

Lemma within_exact (v : R) : within 0 v v.
Proof. unfold within, shrink, grow. simpl. lra. Qed.

Lemma within_nonneg (a : nat) (v x : R) : (0 <= v)%R -> within a v x -> (0 <= x)%R.
Proof. intros Hv [H1 _]. assert (Hl := shrink_bounds a). nra. Qed.

Lemma within_rounded (a : nat) (v x z : R) :
  (0 <= v)%R -> within a v x -> rounded x z -> within (S a) v z.
Proof.
  intros Hv Hn [H3 H4]. assert (Hx := within_nonneg a v x Hv Hn).
  destruct Hn as [H1 H2]. unfold within. rewrite shrink_S, grow_S.
  assert (He := epsilon_bounds).
  assert (Hl := shrink_bounds a). assert (Hh := grow_bounds a).
  split; nra.
Qed.

Lemma within_mul (a b : nat) (v w x y : R) :
  (0 <= v)%R -> (0 <= w)%R -> within a v x -> within b w y ->
  within (a + b) (v * w) (x * y).
Proof.
  intros Hv Hw Hx Hy.
  assert (Hx0 := within_nonneg a v x Hv Hx). assert (Hy0 := within_nonneg b w y Hw Hy).
  destruct Hx as [H1 H2], Hy as [H3 H4]. unfold within. rewrite shrink_add, grow_add.
  assert (Hla := shrink_bounds a). assert (Hlb := shrink_bounds b).
  assert (Hha := grow_bounds a). assert (Hhb := grow_bounds b).
  split.
  - replace (v * w * (shrink a * shrink b))%R with ((v * shrink a) * (w * shrink b))%R by ring.
    apply Rmult_le_compat; nra.
  - replace (v * w * (grow a * grow b))%R with ((v * grow a) * (w * grow b))%R by ring.
    apply Rmult_le_compat; nra.
Qed.

Lemma within_add (a : nat) (v w x y : R) :
  within a v x -> within a w y -> within a (v + w) (x + y).
Proof. intros [H1 H2] [H3 H4]. unfold within. split; nra. Qed.

Lemma within_div (a : nat) (v x w : R) :
  (0 < w)%R -> within a v x -> within a (v / w) (x / w).
Proof.
  intros Hw [H1 H2]. unfold within, Rdiv.
  assert (Hi : (0 < / w)%R) by (apply Rinv_0_lt_compat; assumption).
  split.
  - replace (v * / w * shrink a)%R with ((v * shrink a) * / w)%R by ring.
    apply Rmult_le_compat_r; lra.
  - replace (v * / w * grow a)%R with ((v * grow a) * / w)%R by ring.
    apply Rmult_le_compat_r; lra.
Qed.

(** ** The literals *)

Lemma to_R_one : to_R one = 1%R.
Proof.
  unfold one. cbn [to_R]. change 4503599627370496 with (2 ^ 52).
  rewrite <- pow2_IZR, Rmult_1_l, <- pow2_add by lia. reflexivity.
Qed.

Lemma of_Z_2 : npos (-51) (-51) (of_Z 2) /\ to_R (of_Z 2) = 2%R.
Proof.
  change (of_Z 2) with (S754_finite false 4503599627370496 (-51)). split.
  - exists 4503599627370496%positive, (-51). repeat split; lia.
  - cbn [to_R]. change 4503599627370496 with (2 ^ 52).
    rewrite <- pow2_IZR, Rmult_1_l, <- pow2_add by lia.
    change (52 + -51) with 1. unfold pow2. simpl. lra.
Qed.

Lemma of_Z_4 : npos (-50) (-50) (of_Z 4) /\ to_R (of_Z 4) = 4%R.
Proof.
  change (of_Z 4) with (S754_finite false 4503599627370496 (-50)). split.
  - exists 4503599627370496%positive, (-50). repeat split; lia.
  - cbn [to_R]. change 4503599627370496 with (2 ^ 52).
    rewrite <- pow2_IZR, Rmult_1_l, <- pow2_add by lia.
    change (52 + -50) with 2. unfold pow2. simpl. lra.
Qed.

Lemma npos_one : npos (-52) (-52) one.
Proof. exists 4503599627370496%positive, (-52). repeat split; lia. Qed.

Lemma epsilon_inv : (epsilon * IZR (2 ^ 52) = 1)%R.
Proof.
  unfold epsilon. rewrite <- pow2_IZR, <- pow2_add by lia. reflexivity.
Qed.

Lemma value_le (m : positive) (e k B : Z) :
  0 <= k -> Z.pos m <= 2 ^ k -> k + e <= B ->
  (IZR (Z.pos m) * pow2 e <= pow2 B)%R.
Proof.
  intros Hk Hm HB.
  apply Rle_trans with (pow2 (k + e)); [|apply pow2_le; assumption].
  rewrite pow2_add, (pow2_IZR k) by assumption.
  apply Rmult_le_compat_r; [apply Rlt_le, pow2_gt0 | apply IZR_le; assumption].
Qed.

Lemma SFleb_finite (m1 m2 : positive) (e1 e2 : Z) :
  SFleb (S754_finite false m1 e1) (S754_finite false m2 e2) = true ->
  e1 < e2 \/ (e1 = e2 /\ Z.pos m1 <= Z.pos m2).
Proof.
  unfold SFleb. cbn [SFcompare].
  destruct (Z.compare_spec e1 e2) as [Heq | Hlo | Hhi]; try discriminate.
  - intros Rh. right. split; [assumption|].
    change (Pos.compare_cont Eq m1 m2) with (Pos.compare m1 m2) in Rh.
    destruct (Pos.compare_spec m1 m2); try discriminate Rh; lia.
  - intros _. now left.
Qed.

Lemma leb_one_R (x : double) :
  valid x = true -> pos_finite x = true -> leb x one = true ->
  (to_R x <= 1)%R.
Proof.
  intros Hv Hp Hle.
  destruct x as [| | |[|] m e]; try discriminate Hp.
  destruct (valid_pos_finite m e Hv) as (Hm & He & _).
  apply SFleb_finite in Hle.
  cbn [to_R]. rewrite Rmult_1_l. rewrite <- pow2_0.
  destruct Hle as [Hlo | [-> Hle]].
  - apply (value_le m e 53 0); lia.
  - apply (value_le m (-52) 52 0); lia.
Qed.

(** ** The kernel *)

Section KernelError.

Variables (start end_ : double) (steps : Z).

Hypothesis Hvs : valid start = true.
Hypothesis Hve : valid end_ = true.
Hypothesis H0 : leb zero start = true.
Hypothesis Hlt : ltb start end_ = true.
Hypothesis H1 : leb end_ one = true.
Hypothesis HD : (pow2 (-400) <= to_R end_ - to_R start)%R.
Hypothesis Hn : 1 <= steps <= 2 ^ 50.

Let Rs : R := to_R start.
Let Rd : R := (to_R end_ - to_R start)%R.
Let Rn : R := IZR steps.
Let Rh : R := (Rd / Rn)%R.
Let h : double := fdiv (fsub end_ start) (of_Z steps).

Lemma bounds_in_range :
  pos_finite end_ = true /\
  ((exists s, start = S754_zero s) \/ pos_finite start = true) /\
  wpos 0 start /\ (0 <= Rs)%R /\ (to_R end_ <= 1)%R.
Proof.
  assert (HpA := pow2_gt0 (-400)).
  assert (He : pos_finite end_ = true).
  { clear HD. destruct start as [ss|[|]| |[|] ms es]; try discriminate H0;
      destruct end_ as [se|[|]| |[|] me ee]; try discriminate Hlt;
      try discriminate H1; reflexivity. }
  assert (HE := leb_one_R end_ Hve He H1).
  split; [exact He|]. unfold Rs.
  destruct start as [ss|[|]| |[|] ms es]; try discriminate H0.
  - split; [left; now exists ss|]. split; [left; now exists ss|].
    cbn [to_R]. split; [lra | assumption].
  - clear HD. destruct end_ as [se|[|]| |[|] me ee]; discriminate Hlt.
  - split; [now right|].
    destruct (valid_pos_finite ms es Hvs) as (Hms & Hes & _).
    cbn [to_R] in *. rewrite Rmult_1_l in *.
    assert (Hm0 : (1 <= IZR (Z.pos ms))%R) by (apply IZR_le; lia).
    assert (Hpe := pow2_gt0 es).
    assert (Hv0 : (pow2 es <= IZR (Z.pos ms) * pow2 es)%R).
    { rewrite <- (Rmult_1_l (pow2 es)) at 1.
      apply Rmult_le_compat_r; lra. }
    split; [|split; [lra | assumption]].
    right. exists ms, es. split; [reflexivity|]. split; [assumption|].
    split; [lia|].
    assert (Hp : (pow2 es < pow2 0)%R) by (rewrite pow2_0; lra).
    apply pow2_lt_inv in Hp. lia.
Qed.

Lemma count_pos : (1 <= Rn)%R.
Proof. unfold Rn. apply IZR_le. lia. Qed.

Lemma width_pos : (0 < Rd)%R.
Proof. unfold Rd. assert (HpA := pow2_gt0 (-400)). lra. Qed.

Lemma step_pos : (0 < Rh)%R.
Proof.
  unfold Rh. apply Rdiv_lt_0_compat; [apply width_pos | assert (HN := count_pos); lra].
Qed.

Lemma count_step : (Rn * Rh = Rd)%R.
Proof. unfold Rh. assert (HN := count_pos). field. lra. Qed.

Lemma step_size_R : npos (-505) (-50) h /\ within 2 Rh (to_R h).
Proof.
  destruct bounds_in_range as (He & Hs & _ & HS & HE).
  destruct (fsub_R (-400) 0 end_ start Hve Hvs He Hs HD) as [Hd Hdv];
    [rewrite pow2_0; exact HE | lia | lia |].
  destruct (of_Z_R steps ltac:(lia)) as [Hnn Hnv].
  destruct (fdiv_R _ _ _ _ _ _ Hd Hnn ltac:(lia) ltac:(lia)) as [Hh Hhv].
  split; [exact Hh|].
  rewrite Hnv in Hhv. fold Rd in Hdv. fold Rn in Hhv.
  assert (HD0 := width_pos). assert (HN := count_pos).
  apply within_rounded with (x := (to_R (fsub end_ start) / Rn)%R).
  - apply Rlt_le, step_pos.
  - apply within_div; [lra|].
    apply within_rounded with (x := Rd); [lra | apply within_exact | exact Hdv].
  - exact Hhv.
Qed.

(** The sample point of index [i]. *)
Lemma sample_point_R (i : Z) :
  0 <= i < steps ->
  npos (-507) 8 (spec_x start h i) /\
  within 5 (Rs + IZR i * Rh + Rh / 2) (to_R (spec_x start h i)).
Proof.
  intros Hi.
  destruct bounds_in_range as (He & Hs & Hws & HS & HE).
  destruct step_size_R as [Hh Hhv].
  assert (HH := step_pos).
  destruct of_Z_2 as [H2 H2v].
  destruct (fdiv_R _ _ _ _ _ _ Hh H2 ltac:(lia) ltac:(lia)) as [Hg Hgv].
  rewrite H2v in Hgv.
  assert (Hgn : within 3 (Rh / 2) (to_R (fdiv h (of_Z 2)))).
  { apply within_rounded with (x := (to_R h / 2)%R); [lra | | exact Hgv].
    apply within_div; [lra | exact Hhv]. }
  unfold spec_x. cbn [add mul div of_int F64_Arith].
  destruct (Z.eq_dec i 0) as [-> | Hi0].
  - assert (Eq : exists q, fadd start (fmul (of_Z 0) h) = q /\
                           wpos 0 q /\ to_R q = Rs).
    { destruct Hh as (mh & eh & Eh & _). rewrite Eh.
      change (of_Z 0) with (S754_zero false).
      change (fmul (S754_zero false) (S754_finite false mh eh))
        with (S754_zero false).
      destruct Hs as [[s Es] | Hs].
      - rewrite Es. destruct s; eexists; (split; [reflexivity|]);
          (split; [left; eexists; reflexivity|]); unfold Rs; rewrite Es; reflexivity.
      - destruct start as [| | |[|] ms es]; try discriminate.
        eexists. split; [reflexivity|]. split; [exact Hws | reflexivity]. }
    destruct Eq as (q & Eq & Hq & Hqv). rewrite Eq.
    destruct (fadd_R _ _ _ _ _ Hq Hg ltac:(lia) ltac:(lia) ltac:(lia)) as [Hx Hxv].
    split; [apply (npos_weaken _ _ _ _ _ Hx); lia|].
    rewrite Hqv in Hxv.
    replace (Rs + 0 * Rh + Rh / 2)%R with (Rs + Rh / 2)%R by ring.
    apply within_weaken with (a := 4%nat); [lra | | lia].
    apply within_rounded with (x := (Rs + to_R (fdiv h (of_Z 2)))%R); [lra | | exact Hxv].
    apply within_add; [|exact Hgn].
    apply within_weaken with (a := 0%nat); [lra | apply within_exact | lia].
  - destruct (of_Z_R i ltac:(lia)) as [Hin Hiv].
    assert (Hi1 : (1 <= IZR i)%R) by (apply IZR_le; lia).
    destruct (fmul_R _ _ _ _ _ _ Hin Hh ltac:(lia) ltac:(lia)) as [Hp Hpv].
    rewrite Hiv in Hpv.
    assert (Hpn : within 3 (IZR i * Rh) (to_R (fmul (of_Z i) h))).
    { apply within_rounded with (x := (IZR i * to_R h)%R); [nra | | exact Hpv].
      apply (within_mul 0 2); [lra | lra | apply within_exact | exact Hhv]. }
    destruct (fadd_R _ _ _ _ _ Hws Hp ltac:(lia) ltac:(lia) ltac:(lia)) as [Hq Hqv].
    fold Rs in Hqv.
    assert (Hqn : within 4 (Rs + IZR i * Rh) (to_R (fadd start (fmul (of_Z i) h)))).
    { apply within_rounded with (x := (Rs + to_R (fmul (of_Z i) h))%R); [nra | | exact Hqv].
      apply within_add; [|exact Hpn].
      apply within_weaken with (a := 0%nat); [lra | apply within_exact | lia]. }
    assert (Hqw := npos_wpos _ _ _ Hq ltac:(lia)).
    destruct (fadd_R _ _ _ _ _ Hqw Hg ltac:(lia) ltac:(lia) ltac:(lia)) as [Hx Hxv].
    split; [apply (npos_weaken _ _ _ _ _ Hx); lia|].
    apply within_rounded with
      (x := (to_R (fadd start (fmul (of_Z i) h)) + to_R (fdiv h (of_Z 2)))%R);
      [nra | | exact Hxv].
    apply within_add; [exact Hqn|].
    apply within_weaken with (a := 3%nat); [lra | exact Hgn | lia].
Qed.

Lemma sample_point_inside (i : Z) :
  0 <= i < steps -> (0 < Rs + IZR i * Rh + Rh / 2 <= 1)%R.
Proof.
  intros Hi. destruct bounds_in_range as (_ & _ & _ & HS & HE).
  assert (HH := step_pos). assert (HRn_Rh := count_step).
  assert (Hi0 : (0 <= IZR i)%R) by (apply IZR_le; lia).
  assert (Hi1 : (IZR i + 1 <= Rn)%R).
  { unfold Rn. rewrite <- plus_IZR. apply IZR_le. lia. }
  unfold Rd in HRn_Rh. fold Rs in HRn_Rh. split; nra.
Qed.

(** The sample of index [i]: 4 / (1 + x * x). *)
Lemma sample_value_R (i : Z) :
  0 <= i < steps ->
  npos (-175) (-49) (spec_f (spec_x start h i)) /\
  (2 * shrink 13 <= to_R (spec_f (spec_x start h i)) <= 4 * grow 3)%R.
Proof.
  intros Hi.
  destruct (sample_point_R i Hi) as [Hx Hxv].
  destruct (sample_point_inside i Hi) as [HX0 HX1].
  set (X := (Rs + IZR i * Rh + Rh / 2)%R) in *.
  set (x := spec_x start h i) in *.
  unfold spec_f. cbn [add mul div of_int F64_Arith].
  destruct (fmul_R _ _ _ _ _ _ Hx Hx ltac:(lia) ltac:(lia)) as [Hz Hzv].
  assert (Hzn : within 11 (X * X) (to_R (fmul x x))).
  { apply within_rounded with (x := (to_R x * to_R x)%R); [nra | | exact Hzv].
    apply (within_mul 5 5); try lra; assumption. }
  change (of_Z 1) with one. rewrite (fadd_comm one).
  assert (Hzw := npos_wpos _ _ _ Hz ltac:(lia)).
  destruct (fadd_R _ _ _ _ _ Hzw npos_one ltac:(lia) ltac:(lia) ltac:(lia))
    as [Hy Hyv].
  rewrite to_R_one in Hyv.
  destruct of_Z_4 as [H4 H4v].
  destruct (fdiv_R _ _ _ _ _ _ H4 Hy ltac:(lia) ltac:(lia)) as [Ht Htv].
  rewrite H4v in Htv.
  split; [apply (npos_weaken _ _ _ _ _ Ht); lia|].
  set (Zr := to_R (fmul x x)) in *.
  set (Y := to_R (fadd (fmul x x) one)) in *.
  set (T := to_R (fdiv (of_Z 4) (fadd (fmul x x) one))) in *.
  assert (He := epsilon_bounds).
  assert (Hz0 : (0 <= Zr)%R) by (apply (within_nonneg 11 (X * X)); [nra | exact Hzn]).
  assert (Hh11 := grow_bounds 11).
  assert (Hz1 : (Zr <= grow 11)%R).
  { destruct Hzn as [_ Hu]. assert (HXX : (X * X <= 1)%R) by nra. nra. }
  destruct Hyv as [Hy1 Hy2].
  assert (HY0 : (1 - epsilon <= Y)%R) by nra.
  assert (HY1 : (Y <= 2 * grow 12)%R).
  { change 12%nat with (S 11). rewrite grow_S. nra. }
  assert (HI : (0 < / Y)%R) by (apply Rinv_0_lt_compat; lra).
  assert (HYI : (Y * / Y = 1)%R) by (apply Rinv_r; lra).
  destruct Htv as [Ht1 Ht2]. unfold Rdiv in Ht1, Ht2.
  set (I := (/ Y)%R) in *.
  assert (Hlh := shrink_grow 12). assert (Hh12 := grow_bounds 12).
  assert (Hl12 := shrink_bounds 12).
  split.
  - change 13%nat with (S 12). rewrite shrink_S.
    assert (HI1 : (shrink 12 <= 2 * I)%R).
    { destruct (Rle_or_lt (shrink 12) (2 * I)) as [Hok | Hbad]; [assumption|].
      exfalso. assert (Hc : (2 * I * grow 12 < shrink 12 * grow 12)%R) by nra.
      assert (Hc2 : (1 <= 2 * I * grow 12)%R) by nra. lra. }
    nra.
  - assert (HI2 : (I <= (1 + epsilon) * (1 + epsilon))%R).
    { assert (Hc : (I * (1 - epsilon) <= 1)%R) by nra.
      assert (Hd : (1 <= (1 - epsilon) * ((1 + epsilon) * (1 + epsilon)))%R) by nra.
      destruct (Rle_or_lt I ((1 + epsilon) * (1 + epsilon))) as [Hok | Hbad]; [assumption|].
      exfalso. nra. }
    unfold grow. simpl. nra.
Qed.

End KernelError.



Lemma epsilon_small : (epsilon <= / 1024)%R.
Proof.
  unfold epsilon. replace (/ 1024)%R with (pow2 (-10)).
  - apply pow2_le. lia.
  - unfold pow2. simpl. lra.
Qed.

Lemma shrink_1 : shrink 1 = (1 - epsilon)%R.
Proof. unfold shrink. simpl. ring. Qed.

Lemma grow_1 : grow 1 = (1 + epsilon)%R.
Proof. unfold grow. simpl. ring. Qed.

Lemma grow_small (k : nat) : Z.of_nat k <= 2 ^ 50 + 4 -> (grow k <= 2)%R.
Proof.
  intros Hk.
  assert (Hc := epsilon_inv). assert (He := epsilon_bounds). assert (Hs := epsilon_small).
  assert (H4 : (4 * INR k <= IZR (2 ^ 52) + 16)%R).
  { rewrite INR_IZR_INZ.
    change 4%R with (IZR 4). change 16%R with (IZR 16).
    rewrite <- mult_IZR, <- plus_IZR. apply IZR_le.
    change (2 ^ 52) with (4 * 2 ^ 50). lia. }
  set (c := IZR (2 ^ 52)) in *.
  assert (Hlin : (2 * INR k * epsilon <= 1)%R) by nra.
  assert (Hh := grow_linear k Hlin). nra.
Qed.

Lemma sum_step (k : nat) (acc t : double) :
  sum_invariant k acc -> good_sample t -> Z.of_nat (S k) <= 2 ^ 50 ->
  sum_invariant (S k) (fadd acc t).
Proof.
  intros Hinv [Ht [Ht1 Ht2]] Hk. right. split; [lia|].
  assert (He := epsilon_bounds).
  destruct Hinv as [[-> ->] | (Hk1 & Hacc & Ha1 & Ha2)].
  - assert (E : fadd zero t = t).
    { destruct Ht as (m & e & -> & _). reflexivity. }
    rewrite E. split; [apply (npos_weaken _ _ _ _ _ Ht); lia|].
    assert (Hl := shrink_mono 13 (13 + 1) ltac:(lia)).
    assert (Hh := grow_mono 3 (3 + 1) ltac:(lia)).
    assert (Hl0 := shrink_bounds (13 + 1)).
    change (INR 1) with 1%R. split; lra.
  - assert (Haw := npos_wpos _ _ _ Hacc ltac:(lia)).
    destruct (fadd_R _ _ _ _ _ Haw Ht ltac:(lia) ltac:(lia) ltac:(lia))
      as [Hr [Hr1 Hr2]].
    assert (Hk0 : (1 <= INR k)%R).
    { change 1%R with (INR 1). apply le_INR. lia. }
    assert (Hl := shrink_mono 13 (13 + k) ltac:(lia)).
    assert (Hh := grow_mono 3 (3 + k) ltac:(lia)).
    assert (Hl0 := shrink_bounds (13 + k)). assert (Hh0 := grow_bounds (3 + k)).
    assert (Hlow : (2 * INR (S k) * shrink (13 + S k) <= to_R (fadd acc t))%R).
    { rewrite S_INR. replace (13 + S k)%nat with (S (13 + k)) by lia.
      rewrite shrink_S. nra. }
    assert (Hupp : (to_R (fadd acc t) <= 4 * INR (S k) * grow (3 + S k))%R).
    { rewrite S_INR. replace (3 + S k)%nat with (S (3 + k)) by lia.
      rewrite grow_S. nra. }
    split; [|split; assumption].
    replace 1 with (53 - 52) by lia.
    apply npos_below with (b := Z.max 1 (-49) + 2); [exact Hr|].
    apply Rle_trans with (1 := Hupp).
    assert (Hs := grow_small (3 + S k) ltac:(lia)).
    assert (Hh1 := grow_bounds (3 + S k)).
    assert (Hn : (INR (S k) <= IZR (2 ^ 50))%R).
    { rewrite INR_IZR_INZ. apply IZR_le. lia. }
    assert (Hn0 : (0 <= INR (S k))%R) by apply pos_INR.
    rewrite (pow2_IZR 53) by lia. change (2 ^ 53) with (8 * 2 ^ 50).
    rewrite mult_IZR. set (c := IZR (2 ^ 50)) in *. nra.
Qed.

Lemma sum_R (l : list double) :
  Forall good_sample l ->
  forall (k : nat) (acc : double),
    sum_invariant k acc ->
    Z.of_nat (k + List.length l) <= 2 ^ 50 ->
    sum_invariant (k + List.length l) (fold_left fadd l acc).
Proof.
  induction 1 as [|t l Ht Hl IH]; intros k acc Hinv Hk.
  - cbn [List.length fold_left]. now rewrite Nat.add_0_r.
  - cbn [List.length fold_left] in *.
    replace (k + S (List.length l))%nat with (S k + List.length l)%nat in * by lia.
    apply IH; [|assumption].
    apply sum_step; [assumption | assumption | lia].
Qed.

(** The result of [calculate_partial_integral] in binary64, with the
    rounding errors of its operations accumulated. *)
Lemma calculate_partial_integral_R (start end_ : double) (steps : Z) :
  valid start = true -> valid end_ = true ->
  leb zero start = true -> ltb start end_ = true -> leb end_ one = true ->
  (pow2 (-400) <= to_R end_ - to_R start)%R ->
  1 <= steps <= 2 ^ 50 ->
  npos (-628) 5 (calculate_partial_integral start end_ steps) /\
  (2 * (to_R end_ - to_R start) * shrink (Z.to_nat steps + 16)
     <= to_R (calculate_partial_integral start end_ steps)
     <= 4 * (to_R end_ - to_R start) * grow (Z.to_nat steps + 16))%R.
Proof.
  intros Hvs Hve H0 Hlt H1 HD Hn.
  rewrite (calculate_partial_integral_midpoint (T:=double))
    by (unfold ULLONG_MOD; lia).
  unfold midpoint_rule, spec_sum. cbn [add sub mul div of_int F64_Arith].
  set (h := fdiv (fsub end_ start) (of_Z steps)).
  set (l := map (fun i => spec_f (spec_x start h i)) (indices steps)).
  destruct (step_size_R start end_ steps Hvs Hve H0 Hlt H1 HD Hn) as [Hh Hhv].
  fold h in Hh, Hhv.
  assert (Hl : Forall good_sample l).
  { unfold l. apply Forall_forall. intros t Hin.
    apply in_map_iff in Hin. destruct Hin as (i & <- & Hi).
    apply indices_In in Hi.
    exact (sample_value_R start end_ steps Hvs Hve H0 Hlt H1 HD Hn i Hi). }
  assert (Hlen : List.length l = Z.to_nat steps).
  { unfold l. now rewrite length_map, indices_length. }
  assert (Hsum := sum_R l Hl 0%nat zero (or_introl (conj eq_refl eq_refl))).
  rewrite Hlen in Hsum. cbn [Nat.add] in Hsum.
  specialize (Hsum ltac:(lia)).
  change (of_Z 0) with zero.
  destruct Hsum as [[Hz _] | (Hk1 & Hacc & Ha1 & Ha2)]; [lia|].
  set (n := Z.to_nat steps) in *.
  set (sum := fold_left fadd l zero) in *.
  destruct (fmul_R _ _ _ _ _ _ Hacc Hh ltac:(lia) ltac:(lia)) as [Hr [Hr1 Hr2]].
  split; [apply (npos_weaken _ _ _ _ _ Hr); lia|].
  assert (HD0 := width_pos start end_ HD).
  assert (HN := count_pos steps Hn).
  assert (HH := step_pos start end_ steps HD Hn).
  assert (HNH := count_step start end_ steps Hn).
  set (Rd := (to_R end_ - to_R start)%R) in *.
  set (Rh := (Rd / IZR steps)%R) in *.
  assert (EN : INR n = IZR steps).
  { unfold n. rewrite INR_IZR_INZ, Z2Nat.id by lia. reflexivity. }
  rewrite EN in Ha1, Ha2.
  destruct Hhv as [Hh1 Hh2].
  assert (He := epsilon_bounds).
  assert (Hl13 := shrink_bounds (13 + n)). assert (Hl2 := shrink_bounds 2).
  assert (Hh3 := grow_bounds (3 + n)). assert (Hh2' := grow_bounds 2).
  assert (Hs0 : (0 <= to_R sum)%R) by nra.
  assert (Hh0 : (0 <= to_R h)%R) by nra.
  split.
  - replace (n + 16)%nat with ((13 + n) + 2 + 1)%nat by lia.
    replace (2 * Rd * shrink (13 + n + 2 + 1))%R
      with ((2 * IZR steps * shrink (13 + n)) * (Rh * shrink 2) * (1 - epsilon))%R
      by (rewrite (shrink_add (13 + n + 2) 1), (shrink_add (13 + n) 2), shrink_1, <- HNH; ring).
    apply Rle_trans with (2 := Hr1).
    apply Rmult_le_compat_r; [lra|].
    apply Rmult_le_compat; nra.
  - apply Rle_trans with (1 := Hr2).
    apply Rle_trans with (4 * Rd * grow ((3 + n) + 2 + 1))%R.
    + replace (4 * Rd * grow (3 + n + 2 + 1))%R
        with ((4 * IZR steps * grow (3 + n)) * (Rh * grow 2) * (1 + epsilon))%R
        by (rewrite (grow_add (3 + n + 2) 1), (grow_add (3 + n) 2), grow_1, <- HNH; ring).
      apply Rmult_le_compat_r; [lra|].
      apply Rmult_le_compat; nra.
    + assert (Hm := grow_mono ((3 + n) + 2 + 1) (n + 16) ltac:(lia)). nra.
Qed.

(** C8, amended: let start and end be doubles with 0 <= start < end <= 1
    whose exact difference is at least 2^-400, and 1 <= steps <= 2^50.
    Then the result of [calculate_partial_integral] is a positive finite
    double, hence strictly above 0, and as a real number it lies between
    2 * (end - start) * (1 - 2^-52)^(steps + 16) and
    4 * (end - start) * (1 + 2^-52)^(steps + 16), where end - start is
    the exact difference. *)
Theorem partial_integral_within_rounded_bounds (start end_ : double) (steps : Z) :
  valid start = true -> valid end_ = true ->
  leb zero start = true -> ltb start end_ = true -> leb end_ one = true ->
  (pow2 (-400) <= to_R end_ - to_R start)%R ->
  1 <= steps <= 2 ^ 50 ->
  pos_finite (cpi start end_ steps) = true /\
  (0 < to_R (cpi start end_ steps))%R /\
  (2 * (to_R end_ - to_R start) * (1 - epsilon) ^ (Z.to_nat steps + 16)
     <= to_R (cpi start end_ steps)
     <= 4 * (to_R end_ - to_R start) * (1 + epsilon) ^ (Z.to_nat steps + 16))%R.
Proof.
  intros Hvs Hve H0 Hlt H1 HD Hn.
  destruct (calculate_partial_integral_R start end_ steps Hvs Hve H0 Hlt H1 HD Hn)
    as [Hr Hb].
  split; [|split].
  - destruct Hr as (m & e & -> & _). reflexivity.
  - exact (npos_pos _ _ _ Hr).
  - exact Hb.
Qed.

Lemma partial_integral_within_rounded_bounds_witness :
  pos_finite (cpi zero one 4) = true /\
  (0 < to_R (cpi zero one 4))%R /\
  (2 * (to_R one - to_R zero) * (1 - epsilon) ^ (Z.to_nat 4 + 16)
     <= to_R (cpi zero one 4)
     <= 4 * (to_R one - to_R zero) * (1 + epsilon) ^ (Z.to_nat 4 + 16))%R.
Proof.
  apply (partial_integral_within_rounded_bounds zero one 4);
    try reflexivity; [|lia].
  rewrite to_R_one. cbn [to_R zero]. rewrite Rminus_0_r, <- pow2_0.
  apply pow2_le. lia.
Defined.

End RoundingErrors.
